(** * modd/shell: executors, the command runner and its output pumps

    A shallow embedding of [shell/shell.go].  The Go code talks to four
    collaborators that are not part of the package: the operating system
    (os/exec, os.Executable), the tokenizer (shlex.Split), the buffered
    reader (bufio.Reader) and the log stream (termlog.Stream).  The first
    two are an oracle record [World]; the third is embedded from the Go
    standard library; the last one is the trace of [Say]/[Warn] calls. *)

From Stdlib Require Import ZArith Lia Bool.
From Stdlib Require Import Strings.String Strings.Ascii Strings.Byte.
From stdpp Require Import base list strings gmap.

Local Open Scope string_scope.
Local Open Scope list_scope.
Set Warnings "-clear-no-such-hyp".

(** ** Go values *)

(** [os.ProcessState]: how a started process ended. *)
Inductive ProcessState : Type :=
| Exited (code : Z)
| Signaled (sig : Z).

(** [ProcessState.Success]. *)
Definition Success (st : ProcessState) : bool :=
  match st with
  | Exited 0 => true
  | _ => false
  end.

(** Non-nil values of Go's [error] interface. *)
Inductive err : Type :=
| errorString (msg : string)          (* errors.New, fmt.Errorf *)
| PathError (op msg : string)         (* *os.PathError, *os.SyscallError *)
| ExitError (st : ProcessState).      (* *exec.ExitError *)

(** Go's [error]: [None] is [nil]. *)
Abbreviation error := (option err).
Abbreviation nil_error := (@None err).

Global Instance ProcessState_eq_dec : EqDecision ProcessState.
Proof. solve_decision. Defined.
Global Instance err_eq_dec : EqDecision err.
Proof. solve_decision. Defined.

Global Instance byte_eq_decision : EqDecision byte := Byte.byte_eq_dec.

(** The line feed and carriage return bytes, and the one-byte string
    that Go writes as a backslash followed by n. *)
Definition LF : byte := x0a.
Definition CR : byte := x0d.
Definition newline : string := String (ascii_of_byte LF) EmptyString.

(** [exec.Cmd]: [exec.Command name arg...] stores [name] as the path and
    [name :: arg] as the argument vector.  Whether the path can be run
    is the world's answer to [Start]. *)
Record Cmd : Type := mkCmd { Path : string; Args : list string }.

Definition Command (name : string) (arg : list string) : Cmd :=
  {| Path := name; Args := name :: arg |}.

(** ** The reader under a pipe

    What the read end of a pipe hands over: the data of the successive
    [Read] calls, then an error on every later call, [io.EOF] at end of
    stream or the error of a failed read. *)
Inductive ReadEnd : Type :=
| AtEOF
| ReadFailed (msg : string).

Record Source : Type := mkSource { chunks : list (list byte); final : ReadEnd }.

Definition EOF : err := errorString "EOF".

Definition end_error (e : ReadEnd) : err :=
  match e with
  | AtEOF => EOF
  | ReadFailed msg => PathError "read" msg
  end.

Definition ErrBufferFull : err := errorString "bufio: buffer full".
Definition ErrNoProgress : err :=
  errorString "multiple Read calls return no data or error".

(** [rd.Read(p)] with [len(p) = space]. *)
Definition Read (space : nat) (rd : Source) : list byte * error * Source :=
  match chunks rd with
  | [] => ([], Some (end_error (final rd)), rd)
  | c :: cs =>
      (take space c, nil_error,
       {| chunks := if decide (length c <= space)%nat then cs
                    else drop space c :: cs;
          final := final rd |})
  end.

(** ** Effects *)

Inductive stream := Stdout | Stderr.

(** What a run does to the outside, in program order. *)
Inductive event : Type :=
| EvLookPath (file : string)
| EvExecutable
| EvStdoutPipe (c : Cmd)
| EvStderrPipe (c : Cmd)
| EvStart (c : Cmd)
| EvGo (s : stream)                         (* go logOutput(...) *)
| EvSay (format : string) (args : list string)
| EvWarn (format : string) (args : list string)
| EvWait (c : Cmd).

(** The collaborators, as oracles.  [sched] picks, at each step where
    both pumps can move, the one that does ([true]: the standard-error
    pump). *)
Record World : Type := mkWorld {
  shlex_Split : string -> list string * error;
  LookPath : string -> string * error;
  os_Executable : string * error;
  StdoutPipe : Cmd -> error;
  StderrPipe : Cmd -> error;
  Start : Cmd -> error;
  stdout_of : Cmd -> Source;
  stderr_of : Cmd -> Source;
  exit_of : Cmd -> ProcessState;
  sched : list bool;
}.

(** A Go computation: reads the world, appends to the trace, and
    either returns or panics. *)
Inductive outcome (A : Type) : Type :=
| Returned (a : A)
| Panicked (msg : string).
Arguments Returned {A} a.
Arguments Panicked {A} msg.

Definition Go (A : Type) : Type := World -> list event -> outcome A * list event.

Definition ret {A} (a : A) : Go A := fun _ t => (Returned a, t).
Definition bind {A B} (m : Go A) (k : A -> Go B) : Go B :=
  fun w t =>
    match m w t with
    | (Returned a, t') => k a w t'
    | (Panicked msg, t') => (Panicked msg, t')
    end.
Definition panic {A} (msg : string) : Go A := fun _ t => (Panicked msg, t).
Definition emit (e : event) : Go unit := fun _ t => (Returned tt, t ++ [e]).
Definition ask {A} (f : World -> A) : Go A := fun w t => (Returned (f w), t).

Notation "'let*' x ':=' m 'in' k" := (bind m (fun x => k))
  (at level 10, x name, m at level 100, k at level 200, only parsing).
Notation "'do' m 'in' k" := (bind m (fun _ => k))
  (at level 10, m at level 100, k at level 200, only parsing).

(** ** bufio.Reader

    The fields of Go's [bufio.Reader] that [ReadLine] uses: [buf] is the
    unread window [b.buf[b.r:b.w]], [bufsize] is [len(b.buf)], [rerr] is
    [b.err], [rd] the underlying reader. *)
Record Reader : Type := mkReader {
  bufsize : nat;
  buf : list byte;
  rerr : error;
  rd : Source;
}.

Definition defaultBufSize : nat := 4096.
Definition minReadBufferSize : nat := 16.
Definition maxConsecutiveEmptyReads : nat := 100.

Definition NewReaderSize (src : Source) (size : nat) : Reader :=
  {| bufsize := Nat.max size minReadBufferSize;
     buf := []; rerr := nil_error; rd := src |}.

Definition NewReader (src : Source) : Reader :=
  NewReaderSize src defaultBufSize.

(** The retry loop of [fill]: up to [i] reads, until one returns data
    or an error. *)
Fixpoint fill_loop (i : nat) (b : Reader) : Reader :=
  match i with
  | O => {| bufsize := bufsize b; buf := buf b;
            rerr := Some ErrNoProgress; rd := rd b |}
  | S i' =>
      let '(p, e, rd') := Read (bufsize b - length (buf b)) (rd b) in
      let b' := {| bufsize := bufsize b; buf := buf b ++ p;
                   rerr := rerr b; rd := rd' |} in
      match e with
      | Some _ => {| bufsize := bufsize b; buf := buf b ++ p;
                     rerr := e; rd := rd' |}
      | None => match p with
                | [] => fill_loop i' b'
                | _ :: _ => b'
                end
      end
  end.

Definition fill (b : Reader) : Reader := fill_loop maxConsecutiveEmptyReads b.

(** [bytes.IndexByte], with [None] for Go's -1. *)
Fixpoint IndexByte (l : list byte) (c : byte) : option nat :=
  match l with
  | [] => None
  | x :: l' => if decide (x = c) then Some O
               else option_map S (IndexByte l' c)
  end.

(** The loop of [ReadSlice('\n')]: search the window, then a pending
    error, then a full buffer, else [fill] and go round again.  (Later
    Go releases skip the bytes searched on the turn before, with the
    same result.)  Every turn but the last calls [fill], which adds a
    byte or sets [rerr]; [fuel] bounds the turns and [ReadSlice_fuel]
    shows that the bound is never met. *)
Fixpoint ReadSlice_loop (fuel : nat) (b : Reader) : list byte * error * Reader :=
  match IndexByte (buf b) LF with
  | Some i =>
      (take (S i) (buf b), nil_error,
       {| bufsize := bufsize b; buf := drop (S i) (buf b);
          rerr := rerr b; rd := rd b |})
  | None =>
      match rerr b with
      | Some e =>
          (buf b, Some e,
           {| bufsize := bufsize b; buf := []; rerr := nil_error; rd := rd b |})
      | None =>
          if decide (bufsize b <= length (buf b))%nat then
            (buf b, Some ErrBufferFull,
             {| bufsize := bufsize b; buf := []; rerr := nil_error; rd := rd b |})
          else
            match fuel with
            | O => (buf b, Some ErrNoProgress, b)
            | S fuel' => ReadSlice_loop fuel' (fill b)
            end
      end
  end.

Definition ReadSlice (b : Reader) : list byte * error * Reader :=
  ReadSlice_loop (S (bufsize b)) b.

(** [ReadLine]: the line without its end-of-line bytes, [isPrefix], the
    error and the reader after the call. *)
Definition ReadLine (b : Reader) : list byte * bool * error * Reader :=
  let '(line, e, b1) := ReadSlice b in
  if decide (e = Some ErrBufferFull) then
    match last line with
    | Some c =>
        if decide (c = CR) then
          (* put the CR back, the next call checks for CR LF *)
          (take (length line - 1) line, true, nil_error,
           {| bufsize := bufsize b1; buf := c :: buf b1;
              rerr := rerr b1; rd := rd b1 |})
        else (line, true, nil_error, b1)
    | None => (line, true, nil_error, b1)
    end
  else
    match line with
    | [] => ([], false, e, b1)
    | _ :: _ =>
        if decide (last line = Some LF) then
          let drop_ :=
            if decide (1 < length line /\ line !! (length line - 2) = Some CR)%nat
            then 2%nat else 1%nat in
          (take (length line - drop_) line, false, nil_error, b1)
        else (line, false, nil_error, b1)
    end.

(** ** The command runner *)

(** The state the two pumps share: the trace, which holds the calls on
    the log stream, and the [bytes.Buffer] of [execRunner]. *)
Record RunnerState : Type := mkRunnerState {
  trace : list event;
  buff : string;
}.

(** One turn of a pump's loop, as it acts on the shared state.  A turn
    is taken as one step: the buffer is written by the standard-error
    pump alone, under its mutex, and read after [wg.Wait()], so that
    cutting a turn into smaller steps gives no other trace or buffer. *)
Definition action : Type := RunnerState -> RunnerState.

(** [log.Say] and [log.Warn]. *)
Definition Say (s : string) (args : list string) : action :=
  fun st => {| trace := trace st ++ [EvSay s args]; buff := buff st |}.

Definition Warn (s : string) (args : list string) : action :=
  fun st => {| trace := trace st ++ [EvWarn s args]; buff := buff st |}.

(** What [fmt.Fprintf(w, "%s\n", args...)] writes for string operands:
    the first operand and a line feed; Go's fmt marks a missing operand
    and lists the ones left over. *)
Definition extra_operand (a : string) : string := "string=" +:+ a.

Definition Sprintf_s_newline (args : list string) : string :=
  match args with
  | [] => "%!s(MISSING)" +:+ newline
  | a :: [] => a +:+ newline
  | a :: ((_ :: _) as extra) =>
      a +:+ newline +:+ "%!(EXTRA "
        +:+ String.concat ", " (map extra_operand extra) +:+ ")"
  end.

Definition Fprintf_s_newline (args : list string) : action :=
  fun st => {| trace := trace st; buff := buff st +:+ Sprintf_s_newline args |}.

(** The closure that [execRunner] passes to the standard-error pump. *)
Definition warn_and_buffer (bufferr : bool) (s : string) (args : list string)
  : action :=
  fun st =>
    let st1 := Warn s args st in
    if bufferr then Fprintf_s_newline args st1 else st1.

(** Bytes not yet returned by a reader. *)
Definition unread (r : Reader) : nat :=
  (length (buf r) + length (concat (chunks (rd r))))%nat.

(** The loop of [logOutput]: the calls of [out] it makes, in order.
    Every [ReadLine] that returns no error takes at least one byte, so
    [S (unread r)] turns are enough ([logOutput_loop_fuel]). *)
Fixpoint logOutput_loop (fuel : nat) (r : Reader)
    (out : string -> list string -> action) : list action :=
  match fuel with
  | O => []
  | S fuel' =>
      let '(line, _, e, r') := ReadLine r in
      match e with
      | Some _ => []
      | None => out "%s" [string_of_list_byte line] :: logOutput_loop fuel' r' out
      end
  end.

Definition logOutput (fp : Source) (out : string -> list string -> action)
  : list action :=
  let r := NewReader fp in
  logOutput_loop (S (unread r)) r out.

(** Two goroutines run to completion: at each step the schedule picks
    the one that moves; when the schedule has run out or one of them
    has ended, the rest runs in order. *)
Fixpoint interleave {A : Type} (s : list bool) (xs ys : list A) : list A :=
  match s with
  | [] => xs ++ ys
  | b :: s' =>
      match xs, ys with
      | [], _ => ys
      | _, [] => xs
      | x :: xs', y :: ys' =>
          if b then x :: interleave s' xs' ys
          else y :: interleave s' xs ys'
      end
  end.

Definition run_actions (as_ : list action) (st : RunnerState) : RunnerState :=
  fold_left (fun st a => a st) as_ st.

(** [c.Wait()] after a successful start. *)
Definition Cmd_Wait (st : ProcessState) : error :=
  if Success st then nil_error else Some (ExitError st).

(** The result triple of [Run]: invocation error, process exit error,
    error buffer. *)
Definition RunResult : Type := error * error * string.

(** [go logOutput(stde, ...); go logOutput(stdo, log.Say); wg.Wait()]
    and the buffer's contents afterwards.  The turns of the two pumps
    are merged by the schedule of the world and run to the end, which
    is what [wg.Wait()] waits for; [execRunner] records the two go
    statements before them. *)
Definition run_pumps (c : Cmd) (bufferr : bool) : Go string :=
  fun w t =>
    let stde := logOutput (stderr_of w c) (warn_and_buffer bufferr) in
    let stdo := logOutput (stdout_of w c) Say in
    let st := run_actions (interleave (sched w) stde stdo)
                {| trace := t; buff := EmptyString |} in
    (Returned (buff st), trace st).

Definition execRunner (c : Cmd) (bufferr : bool) : Go RunResult :=
  do emit (EvStdoutPipe c) in
  let* e := ask (fun w => StdoutPipe w c) in
  match e with
  | Some _ => ret (e, nil_error, EmptyString)
  | None =>
      do emit (EvStderrPipe c) in
      let* e := ask (fun w => StderrPipe w c) in
      match e with
      | Some _ => ret (e, nil_error, EmptyString)
      | None =>
          do emit (EvStart c) in
          let* e := ask (fun w => Start w c) in
          match e with
          | Some _ => ret (e, nil_error, EmptyString)
          | None =>
              do emit (EvGo Stderr) in
              do emit (EvGo Stdout) in
              let* text := run_pumps c bufferr in
              do emit (EvWait c) in
              let* st := ask (fun w => exit_of w c) in
              ret (nil_error, Cmd_Wait st, text)
          end
      end
  end.

(** ** Executors *)

(** The [Executor] interface.  The [log termlog.Stream] argument of
    [Run] is the trace, where [Say] and [Warn] leave their calls. *)
Record Executor : Type := mkExecutor {
  Name : string;
  Run : string -> bool -> Go RunResult;
  Stop : Go error;
}.

(** [ss[i]] and [ss[i:]], which panic out of range. *)
Definition index (ss : list string) (i : nat) : Go string :=
  match ss !! i with
  | Some x => ret x
  | None => panic "runtime error: index out of range"
  end.

Definition slice_from (ss : list string) (i : nat) : Go (list string) :=
  if decide (i <= length ss)%nat then ret (drop i ss)
  else panic "runtime error: slice bounds out of range".

Definition Exec_Run (line : string) (bufferr : bool) : Go RunResult :=
  let* r := ask (fun w => shlex_Split w line) in
  let '(ss, e) := r in
  match e with
  | Some _ => ret (e, nil_error, EmptyString)
  | None =>
      if decide (length ss = 0)%nat then
        ret (Some (errorString "No command defined"), nil_error, EmptyString)
      else
        let* name := index ss 0 in
        let* arg := slice_from ss 1 in
        execRunner (Command name arg) bufferr
  end.

Definition Exec : Executor :=
  {| Name := "exec"; Run := Exec_Run; Stop := ret nil_error |}.

Definition getShell : Go (string * error) :=
  do emit (EvLookPath "bash") in
  let* r := ask (fun w => LookPath w "bash") in
  match snd r with
  | None => ret ("bash", nil_error)
  | Some _ =>
      do emit (EvLookPath "sh") in
      let* r := ask (fun w => LookPath w "sh") in
      match snd r with
      | None => ret ("sh", nil_error)
      | Some _ =>
          ret (EmptyString,
               Some (errorString "Could not find bash or sh on path."))
      end
  end.

Definition Bash_Run (line : string) (bufferr : bool) : Go RunResult :=
  let* r := getShell in
  let '(sh, e) := r in
  match e with
  | Some _ => ret (e, nil_error, EmptyString)
  | None => execRunner (Command sh ["-c"; line]) bufferr
  end.

Definition Bash : Executor :=
  {| Name := "bash"; Run := Bash_Run; Stop := ret nil_error |}.

Definition Builtin_Run (line : string) (bufferr : bool) : Go RunResult :=
  do emit EvExecutable in
  let* r := ask os_Executable in
  let '(path, e) := r in
  match e with
  | Some _ => ret (e, nil_error, EmptyString)
  | None => execRunner (Command path ["--exec"; line]) bufferr
  end.

Definition Builtin : Executor :=
  {| Name := "builtin"; Run := Builtin_Run; Stop := ret nil_error |}.

(** ** The registry *)

(** [register], on the package variable [shells]. *)
Definition register (i : Executor) (shells : gmap string Executor)
  : outcome (gmap string Executor) :=
  let name := Name i in
  match shells !! name with
  | Some _ => Panicked ("shell interface " +:+ name +:+ " already exists")
  | None => Returned (<[name := i]> shells)
  end.

Definition and_then {A B} (o : outcome A) (k : A -> outcome B) : outcome B :=
  match o with
  | Returned a => k a
  | Panicked msg => Panicked msg
  end.

(** [init], from [make(map[string]Executor)]. *)
Definition init : outcome (gmap string Executor) :=
  and_then (register Exec ∅) (fun shells =>
  and_then (register Bash shells) (fun shells =>
  register Builtin shells)).

(** [GetExecutor]: [None] is Go's nil Executor. *)
Definition GetExecutor (method : string) (shells : gmap string Executor)
  : option Executor :=
  match shells !! method with
  | Some exec => Some exec
  | None => None
  end.

(** * Vocabulary of the properties *)

(** ** The pumps, as lists of lines *)

(** The lines a pump hands to its callback: the loop of [logOutput]
    with the callback left out. *)
Fixpoint read_lines (fuel : nat) (r : Reader) : list string :=
  match fuel with
  | O => []
  | S fuel' =>
      let '(line, _, e, r') := ReadLine r in
      match e with
      | Some _ => []
      | None => string_of_list_byte line :: read_lines fuel' r'
      end
  end.

Definition pump_lines (fp : Source) : list string :=
  let r := NewReader fp in
  read_lines (S (unread r)) r.

(** The interleavings of two sequences that keep the order of each. *)
Inductive shuffle {A : Type} : list A -> list A -> list A -> Prop :=
| shuffle_nil : shuffle [] [] []
| shuffle_left x xs ys zs : shuffle xs ys zs -> shuffle (x :: xs) ys (x :: zs)
| shuffle_right y xs ys zs : shuffle xs ys zs -> shuffle xs (y :: ys) (y :: zs).

(** A line tagged with the pump it comes from: [inl] standard error,
    [inr] standard output. *)
Definition tagged_action (bufferr : bool) (x : string + string) : action :=
  match x with
  | inl l => warn_and_buffer bufferr "%s" [l]
  | inr l => Say "%s" [l]
  end.

Definition tagged_event (x : string + string) : event :=
  match x with
  | inl l => EvWarn "%s" [l]
  | inr l => EvSay "%s" [l]
  end.

Definition tagged_text (bufferr : bool) (x : string + string) : string :=
  match x with
  | inl l => if bufferr then l +:+ newline else EmptyString
  | inr _ => EmptyString
  end.

Definition stderr_line (x : string + string) : option string :=
  match x with
  | inl l => Some l
  | inr _ => None
  end.

Definition stdout_line (x : string + string) : option string :=
  match x with
  | inl _ => None
  | inr l => Some l
  end.

Definition merged (s : list bool) (es os : list string) : list (string + string) :=
  interleave s (map inl es) (map inr os).

(** The texts of the lines, one after the other. *)
Definition texts (bufferr : bool) (xs : list (string + string)) : string :=
  foldr (fun x acc => tagged_text bufferr x +:+ acc) EmptyString xs.

(** Each line followed by a line feed. *)
Fixpoint lines_text (ls : list string) : string :=
  match ls with
  | [] => EmptyString
  | l :: ls' => l +:+ newline +:+ lines_text ls'
  end.

(** The merged lines of the two pumps of a command. *)
Definition pumped (w : World) (c : Cmd) : list (string + string) :=
  merged (sched w) (pump_lines (stderr_of w c)) (pump_lines (stdout_of w c)).

Definition captured (w : World) (c : Cmd) (bufferr : bool) : string :=
  if bufferr then lines_text (pump_lines (stderr_of w c)) else EmptyString.

(** ** The paths of a run *)

(** The events of a run whose process started. *)
Definition started_events (w : World) (c : Cmd) : list event :=
  [EvStdoutPipe c; EvStderrPipe c; EvStart c; EvGo Stderr; EvGo Stdout]
    ++ map tagged_event (pumped w c) ++ [EvWait c].

(** [execRunner], path by path. *)
Inductive runner_path (c : Cmd) (bufferr : bool) (w : World)
  : RunResult -> list event -> Prop :=
| path_stdout_pipe e :
    StdoutPipe w c = Some e ->
    runner_path c bufferr w (Some e, nil_error, EmptyString) [EvStdoutPipe c]
| path_stderr_pipe e :
    StdoutPipe w c = None -> StderrPipe w c = Some e ->
    runner_path c bufferr w (Some e, nil_error, EmptyString)
      [EvStdoutPipe c; EvStderrPipe c]
| path_start e :
    StdoutPipe w c = None -> StderrPipe w c = None -> Start w c = Some e ->
    runner_path c bufferr w (Some e, nil_error, EmptyString)
      [EvStdoutPipe c; EvStderrPipe c; EvStart c]
| path_started :
    StdoutPipe w c = None -> StderrPipe w c = None -> Start w c = None ->
    runner_path c bufferr w
      (nil_error, Cmd_Wait (exit_of w c), captured w c bufferr)
      (started_events w c).

(** The executors that [init] registers, and a run of one of them from
    an empty trace. *)
Definition strategies : list Executor := [Exec; Bash; Builtin].

(** A strategy either returns early, before any process exists, or
    hands a command to [execRunner]. *)
Inductive strategy_path (line : string) (w : World)
  : Executor -> list event -> option Cmd -> Prop :=
| exec_split_fails e ss :
    shlex_Split w line = (ss, Some e) ->
    strategy_path line w Exec [] None
| exec_no_command :
    shlex_Split w line = ([], nil_error) ->
    strategy_path line w Exec [] None
| exec_command name arg :
    shlex_Split w line = (name :: arg, nil_error) ->
    strategy_path line w Exec [] (Some (Command name arg))
| bash_found :
    snd (LookPath w "bash") = None ->
    strategy_path line w Bash [EvLookPath "bash"]
      (Some (Command "bash" ["-c"; line]))
| sh_found e :
    snd (LookPath w "bash") = Some e -> snd (LookPath w "sh") = None ->
    strategy_path line w Bash [EvLookPath "bash"; EvLookPath "sh"]
      (Some (Command "sh" ["-c"; line]))
| no_shell e e' :
    snd (LookPath w "bash") = Some e -> snd (LookPath w "sh") = Some e' ->
    strategy_path line w Bash [EvLookPath "bash"; EvLookPath "sh"] None
| builtin_no_path p e :
    os_Executable w = (p, Some e) ->
    strategy_path line w Builtin [EvExecutable] None
| builtin_path p :
    os_Executable w = (p, nil_error) ->
    strategy_path line w Builtin [EvExecutable]
      (Some (Command p ["--exec"; line])).

(** A run's process started: the trace has the start of a command that
    the system did start. *)
Definition started (w : World) (t : list event) : Prop :=
  exists c, EvStart c ∈ t /\ Start w c = None.

Definition is_warn (e : event) : bool :=
  match e with
  | EvWarn _ _ => true
  | _ => false
  end.

(** A file is on the search path. *)
Definition on_path (w : World) (file : string) : Prop :=
  snd (LookPath w file) = None.

(** The package variable [shells] once [init] has run. *)
Definition shells0 : gmap string Executor :=
  <["builtin" := Builtin]> (<["bash" := Bash]> (<["exec" := Exec]> ∅)).

(** ** The pump on the bytes of the stream

    [ReadLine] on the bytes that are still to come, whatever the reads
    that deliver them: [flat b] is the unread window followed by what
    the source still holds. *)
Definition flat (b : Reader) : list byte := buf b ++ concat (chunks (rd b)).

(** How [ReadSlice] ends: at a line feed, on a full buffer, or at the
    end of the stream. *)
Inductive slice_end : Type := SliceLine | SliceFull | SliceEnd.

Definition slice_error (fin : ReadEnd) (k : slice_end) : error :=
  match k with
  | SliceLine => nil_error
  | SliceFull => Some ErrBufferFull
  | SliceEnd => Some (end_error fin)
  end.

Definition flat_slice (n : nat) (s : list byte)
  : list byte * slice_end * list byte :=
  match IndexByte (take n s) LF with
  | Some i => (take (S i) s, SliceLine, drop (S i) s)
  | None =>
      if decide (n <= length s)%nat then (take n s, SliceFull, drop n s)
      else (s, SliceEnd, [])
  end.

(** [Some (line, rest)]: [ReadLine] returns [line] and no error, and
    [rest] is still to come; [None]: it returns an error. *)
Definition flat_line (n : nat) (s : list byte)
  : option (list byte * list byte) :=
  let '(line, k, rest) := flat_slice n s in
  match k with
  | SliceFull =>
      match last line with
      | Some c =>
          if decide (c = CR) then Some (take (length line - 1) line, c :: rest)
          else Some (line, rest)
      | None => Some (line, rest)
      end
  | _ =>
      match line with
      | [] => None
      | _ :: _ =>
          if decide (last line = Some LF) then
            let drop_ :=
              if decide (1 < length line /\ line !! (length line - 2) = Some CR)%nat
              then 2%nat else 1%nat in
            Some (take (length line - drop_) line, rest)
          else Some (line, rest)
      end
  end.

Fixpoint flat_lines (fuel n : nat) (s : list byte) : list string :=
  match fuel with
  | O => []
  | S fuel' =>
      match flat_line n s with
      | None => []
      | Some (line, rest) =>
          string_of_list_byte line :: flat_lines fuel' n rest
      end
  end.

(** What holds of a reader between two calls of [ReadLine], and inside
    the loop of [ReadSlice]: the window fits the buffer, every read of
    the source that is left returns data, and an error is pending only
    once the source has been read to its end. *)
Record reader_ok (b : Reader) : Prop := mk_reader_ok {
  ok_size : (minReadBufferSize <= bufsize b)%nat;
  ok_buf : (length (buf b) <= bufsize b)%nat;
  ok_chunks : Forall (fun c => c <> []) (chunks (rd b));
  ok_err : forall e, rerr b = Some e ->
             e = end_error (final (rd b)) /\ chunks (rd b) = []
             /\ IndexByte (buf b) LF = None
             /\ (length (buf b) < bufsize b)%nat;
}.

(** What every reader made by [NewReader] keeps, whatever its source
    does: a buffer of at least the minimum size, a window that fits it,
    and no pending [ErrBufferFull]. *)
Record reader_inv (b : Reader) : Prop := mk_reader_inv {
  inv_size : (minReadBufferSize <= bufsize b)%nat;
  inv_buf : (length (buf b) <= bufsize b)%nat;
  inv_err : rerr b <> Some ErrBufferFull;
}.

(** What a call of [ReadSlice] on [b] must return, given what
    [flat_slice] says of the bytes to come. *)
Definition slice_post (b : Reader) (line : list byte) (k : slice_end)
    (rest : list byte) (res : list byte * error * Reader) : Prop :=
  exists b',
    res = (line, slice_error (final (rd b)) k, b')
    /\ flat b' = rest
    /\ reader_ok b' /\ rerr b' = None
    /\ bufsize b' = bufsize b /\ final (rd b') = final (rd b)
    /\ (k = SliceFull -> buf b' = []).

(** ** Streams as lines *)

(** A stream written as its complete lines, each followed by a line
    feed, and the bytes after the last line feed. *)
Definition unlines (ls : list (list byte)) : list byte :=
  concat (map (fun l => l ++ [LF]) ls).

(** A line without the carriage return of a CR LF end of line. *)
Definition chomp_cr (l : list byte) : list byte :=
  if decide (last l = Some CR) then take (length l - 1) l else l.

(** The unterminated last line, when there is one. *)
Definition tail_line (tail : list byte) : list (list byte) :=
  match tail with
  | [] => []
  | _ :: _ => [tail]
  end.

(** The lines of a stream as text: the complete lines without their end
    of line, then the unterminated last line. *)
Definition stream_lines (ls : list (list byte)) (tail : list byte)
  : list string :=
  map string_of_list_byte (map chomp_cr ls ++ tail_line tail).

(** ** Concrete inputs *)

(** A line of 4097 bytes, one more than the buffer of the pump's reader
    holds, delivered by one read with its line feed. *)
Definition long_line : list byte := repeat "a"%byte 4097.

Definition long_src : Source :=
  {| chunks := [long_line ++ [LF]]; final := AtEOF |}.

(** A stream of short lines that arrives in three reads, none of which
    ends at a line end: two complete lines, the second one with CR LF,
    and an unterminated third. *)
Definition short_src : Source :=
  {| chunks := [ list_byte_of_string "hel";
                 list_byte_of_string "lo" ++ [LF] ++ list_byte_of_string "wor";
                 list_byte_of_string "ld" ++ [CR; LF] ++ list_byte_of_string "end" ];
     final := AtEOF |}.

Definition hello_out : Source :=
  {| chunks := [ list_byte_of_string "hel";
                 list_byte_of_string "lo" ++ [LF] ++ list_byte_of_string "wor";
                 list_byte_of_string "ld" ++ [LF] ];
     final := AtEOF |}.

Definition oops_err : Source :=
  {| chunks := [ list_byte_of_string "oops" ++ [LF]
                   ++ list_byte_of_string "again" ++ [LF] ];
     final := AtEOF |}.

(** A world given by the answers of its oracles; every process in it
    prints two lines on each stream. *)
Definition test_world (split : list string * error) (found : string -> bool)
    (exe pipe_o pipe_e start : error) (ex : ProcessState) : World :=
  {| shlex_Split := fun _ => split;
     LookPath := fun file =>
       if found file then ("/bin/" +:+ file, nil_error)
       else (EmptyString, Some (errorString "executable file not found in $PATH"));
     os_Executable := ("/usr/bin/modd", exe);
     StdoutPipe := fun _ => pipe_o;
     StderrPipe := fun _ => pipe_e;
     Start := fun _ => start;
     stdout_of := fun _ => hello_out;
     stderr_of := fun _ => oops_err;
     exit_of := fun _ => ex;
     sched := [true; false; false; true] |}.

Definition some_error : err := PathError "pipe" "too many open files".

(** Everything works and the process exits with status 1. *)
Definition world_ok : World :=
  test_world (["echo"; "hi"], nil_error) (fun _ => true)
    nil_error nil_error nil_error nil_error (Exited 1).

(** No shell on the search path. *)
Definition world_no_shell : World :=
  test_world (["echo"; "hi"], nil_error) (fun _ => false)
    nil_error nil_error nil_error nil_error (Exited 0).

(** Only sh on the search path. *)
Definition world_sh : World :=
  test_world (["echo"; "hi"], nil_error) (fun file => String.eqb file "sh")
    nil_error nil_error nil_error nil_error (Exited 0).

(** The standard-output pipe cannot be made. *)
Definition world_no_pipe : World :=
  test_world (["echo"; "hi"], nil_error) (fun _ => true)
    nil_error (Some some_error) nil_error nil_error (Exited 0).

(** The tokenizer fails, and the tokenizer finds no token. *)
Definition world_bad_quote : World :=
  test_world ([], Some (errorString "EOF found when expecting closing quote"))
    (fun _ => true) nil_error nil_error nil_error nil_error (Exited 0).

Definition world_no_token : World :=
  test_world ([], nil_error)
    (fun _ => true) nil_error nil_error nil_error nil_error (Exited 0).

(** The program cannot find its own path. *)
Definition world_no_self : World :=
  test_world (["echo"; "hi"], nil_error) (fun _ => true)
    (Some some_error) nil_error nil_error nil_error (Exited 0).

(** Membership in an explicit list of events. *)
Ltac in_events H :=
  rewrite ?elem_of_app, ?elem_of_cons, ?elem_of_nil in H; naive_solver.

Ltac in_list := repeat first [apply list_elem_of_here | apply list_elem_of_further].

(** ** Vocabulary of the further properties *)

(** The events before a process runs: lookups, pipes and the start. *)
Definition is_setup (e : event) : bool :=
  match e with
  | EvLookPath _ | EvExecutable | EvStdoutPipe _ | EvStderrPipe _
  | EvStart _ => true
  | _ => false
  end.

(** The calls on the log stream. *)
Definition is_output (e : event) : bool :=
  match e with
  | EvSay _ _ | EvWarn _ _ => true
  | _ => false
  end.

Definition is_say (e : event) : bool :=
  match e with
  | EvSay _ _ => true
  | _ => false
  end.

(** The events of the two pumps: their launch and their calls. *)
Definition is_pump (e : event) : bool :=
  match e with
  | EvGo _ | EvSay _ _ | EvWarn _ _ => true
  | _ => false
  end.

(** The world with another schedule for the pumps. *)
Definition with_sched (w : World) (s : list bool) : World :=
  {| shlex_Split := shlex_Split w;
     LookPath := LookPath w;
     os_Executable := os_Executable w;
     StdoutPipe := StdoutPipe w;
     StderrPipe := StderrPipe w;
     Start := Start w;
     stdout_of := stdout_of w;
     stderr_of := stderr_of w;
     exit_of := exit_of w;
     sched := s |}.

(** The two ways a run of a strategy goes: it returns an invocation
    error after setup events only, or its process started, the pumps
    ran and [Wait] was called. *)
Inductive run_shape (w : World) (bufferr : bool)
  : RunResult -> list event -> Prop :=
| run_refused e t' :
    Forall (fun ev => is_setup ev = true) t' ->
    (forall c, EvStart c ∈ t' -> Start w c <> None) ->
    run_shape w bufferr (Some e, nil_error, EmptyString) t'
| run_started t1 c :
    Forall (fun ev => is_setup ev = true) t1 ->
    (forall c', EvStart c' ∉ t1) ->
    Start w c = None ->
    run_shape w bufferr
      (nil_error, Cmd_Wait (exit_of w c), captured w c bufferr)
      (t1 ++ [EvStart c; EvGo Stderr; EvGo Stdout]
          ++ map tagged_event (pumped w c) ++ [EvWait c]).

(** The lines that [ReadLine] returns on the bytes to come, as bytes. *)
Fixpoint flat_pieces (fuel n : nat) (s : list byte) : list (list byte) :=
  match fuel with
  | O => []
  | S fuel' =>
      match flat_line n s with
      | None => []
      | Some (line, rest) => line :: flat_pieces fuel' n rest
      end
  end.

(** A stream without its ends of line: every LF is left out, and so is
    a CR that stands right before an LF. *)
Fixpoint strip_eols (s : list byte) : list byte :=
  match s with
  | [] => []
  | c :: r =>
      if decide (c = LF) then strip_eols r
      else if decide (c = CR /\ head r = Some LF) then strip_eols r
      else c :: strip_eols r
  end.

(** The bytes of [short_src], delivered by one read. *)
Definition short_src_one_read : Source :=
  {| chunks := [concat (chunks short_src)]; final := ReadFailed "closed" |}.

(** Every executor of a registry sits under its own name. *)
Definition keyed (shells : gmap string Executor) : Prop :=
  forall method x, GetExecutor method shells = Some x -> Name x = method.

(** [var Default = "bash"]. *)
Definition Default : string := "bash".

(** A source whose reads return no data a hundred times before the
    data comes. *)
Definition stalling_src : Source :=
  {| chunks := repeat [] 100 ++ [list_byte_of_string "late" ++ [LF]];
     final := AtEOF |}.


(** ** Lines and their calls *)

(** The calls [g] that a complete line [l] (its bytes before the LF,
    a CR of a CR LF end among them) gets from a reader with a buffer of
    [n] bytes: end to end they are the line without its end of line, and
    none is longer than the buffer; a line shorter than the buffer gets
    one call, the line itself; a line that is not gets two or more. *)
Definition line_calls (n : nat) (l : list byte) (g : list (list byte)) : Prop :=
  concat g = chomp_cr l
  /\ Forall (fun p => (length p <= n)%nat) g
  /\ ((length l < n)%nat -> g = [chomp_cr l])
  /\ ((n <= length l)%nat -> (2 <= length g)%nat).

(** The calls that the bytes after the last LF get: end to end they
    are those bytes; none when there is no byte, one when they are
    fewer than the buffer holds. *)
Definition tail_calls (n : nat) (tail : list byte) (g : list (list byte)) : Prop :=
  concat g = tail
  /\ Forall (fun p => (length p <= n)%nat) g
  /\ ((length tail < n)%nat -> g = tail_line tail).




(** A short line, a line of 4097 bytes, a short line that ends in
    CR LF and three bytes without a line feed, in two reads. *)
Definition mixed_src : Source :=
  {| chunks := [ list_byte_of_string "hi" ++ [LF] ++ repeat "a"%byte 3000;
                 repeat "a"%byte 1097 ++ [LF] ++ list_byte_of_string "ok"
                   ++ [CR; LF] ++ list_byte_of_string "end" ];
     final := AtEOF |}.

(** * Properties *)

(** ** The two pumps, merged *)

Lemma logOutput_loop_map fuel r out :
  logOutput_loop fuel r out = map (fun l => out "%s" [l]) (read_lines fuel r).
Proof.
  revert r. induction fuel as [|fuel IH]; intros r; simpl; [done|].
  destruct (ReadLine r) as [[[line p] e] r'].
  destruct e; simpl; [done|]. by rewrite IH.
Qed.

Lemma logOutput_map fp out :
  logOutput fp out = map (fun l => out "%s" [l]) (pump_lines fp).
Proof. apply logOutput_loop_map. Qed.

Lemma interleave_map {A B} (f : A -> B) s xs ys :
  interleave s (map f xs) (map f ys) = map f (interleave s xs ys).
Proof.
  revert xs ys. induction s as [|b s IH]; intros xs ys; simpl.
  - by rewrite map_app.
  - destruct xs as [|x xs], ys as [|y ys]; simpl; try done.
    destruct b; simpl; f_equal; apply (IH _ (_ :: _)) || apply (IH (_ :: _)).
Qed.

Lemma shuffle_nil_r {A} (xs : list A) : shuffle xs [] xs.
Proof. induction xs; by constructor. Qed.

Lemma shuffle_nil_l {A} (ys : list A) : shuffle [] ys ys.
Proof. induction ys; by constructor. Qed.

Lemma shuffle_app {A} (xs ys : list A) : shuffle xs ys (xs ++ ys).
Proof.
  induction xs as [|x xs IH]; cbn; [apply shuffle_nil_l|by constructor].
Qed.

Lemma shuffle_nil_r_inv {A} (xs zs : list A) : shuffle xs [] zs -> zs = xs.
Proof.
  revert zs. induction xs as [|x xs IH]; intros zs H; inversion H; subst.
  - done.
  - f_equal. by apply IH.
Qed.

Lemma shuffle_nil_l_inv {A} (ys zs : list A) : shuffle [] ys zs -> zs = ys.
Proof.
  revert zs. induction ys as [|y ys IH]; intros zs H; inversion H; subst.
  - done.
  - f_equal. by apply IH.
Qed.

(** Every schedule gives an interleaving of the two pumps... *)
Lemma interleave_shuffle {A} s (xs ys : list A) :
  shuffle xs ys (interleave s xs ys).
Proof.
  revert xs ys. induction s as [|b s IH]; intros xs ys; cbn.
  - apply shuffle_app.
  - destruct xs as [|x xs]; [apply shuffle_nil_l|].
    destruct ys as [|y ys]; [apply shuffle_nil_r|].
    destruct b; constructor; apply IH.
Qed.

(** ... and every interleaving is the one of some schedule. *)
Lemma shuffle_interleave {A} (xs ys zs : list A) :
  shuffle xs ys zs -> exists s, interleave s xs ys = zs.
Proof.
  induction 1 as [|x xs ys zs H [s IH]|y xs ys zs H [s IH]].
  - by exists [].
  - exists (true :: s). cbn. destruct ys as [|y ys].
    + f_equal. symmetry. by apply shuffle_nil_r_inv.
    + by rewrite IH.
  - exists (false :: s). cbn. destruct xs as [|x xs].
    + f_equal. symmetry. by apply shuffle_nil_l_inv.
    + by rewrite IH.
Qed.

Lemma pumps_merged bufferr s es os :
  interleave s (map (fun l => warn_and_buffer bufferr "%s" [l]) es)
               (map (fun l => Say "%s" [l]) os)
  = map (tagged_action bufferr) (merged s es os).
Proof.
  unfold merged. rewrite <- interleave_map, !map_map. done.
Qed.

Lemma merged_stderr s es os : omap stderr_line (merged s es os) = es.
Proof.
  unfold merged. revert es os.
  induction s as [|b s IH]; intros es os; simpl.
  - induction es as [|e es IHe]; simpl; [|by f_equal].
    induction os as [|o os IHo]; simpl; done.
  - destruct es as [|e es]; simpl.
    + clear. induction os as [|o os IHo]; simpl; done.
    + destruct os as [|o os]; simpl.
      * f_equal. clear. induction es as [|e es IHe]; simpl; [done|by f_equal].
      * destruct b; simpl; [f_equal; apply (IH es (o :: os))|apply (IH (e :: es) os)].
Qed.

Lemma merged_stdout s es os : omap stdout_line (merged s es os) = os.
Proof.
  unfold merged. revert es os.
  induction s as [|b s IH]; intros es os; simpl.
  - induction es as [|e es IHe]; simpl; [|done].
    induction os as [|o os IHo]; simpl; [done|by f_equal].
  - destruct es as [|e es]; simpl.
    + clear. induction os as [|o os IHo]; simpl; [done|by f_equal].
    + destruct os as [|o os]; simpl.
      * clear. induction es as [|e' es IHe]; simpl; done.
      * destruct b; simpl; [apply (IH es (o :: os))|f_equal; apply (IH (e :: es) os)].
Qed.

Lemma append_cons a (s t : string) : String a s +:+ t = String a (s +:+ t).
Proof. reflexivity. Qed.

Lemma append_empty_l (s : string) : EmptyString +:+ s = s.
Proof. reflexivity. Qed.

Lemma append_empty_r (s : string) : s +:+ EmptyString = s.
Proof. induction s as [|a s IH]; [done|by rewrite append_cons, IH]. Qed.

Lemma append_assoc (a b c : string) : (a +:+ b) +:+ c = a +:+ (b +:+ c).
Proof.
  induction a as [|x a IH]; [done|by rewrite !append_cons, IH].
Qed.

(** Running the merged pumps: the trace grows by one call per line, the
    buffer by the text of the standard-error lines. *)
Lemma run_tagged bufferr xs st :
  run_actions (map (tagged_action bufferr) xs) st
  = {| trace := trace st ++ map tagged_event xs;
       buff := buff st +:+ texts bufferr xs |}.
Proof.
  unfold run_actions. revert st.
  induction xs as [|x xs IH]; intros [t b].
  - cbn [map fold_left texts foldr trace buff].
    by rewrite app_nil_r, append_empty_r.
  - cbn [map fold_left]. rewrite IH.
    cbn [texts foldr map]. fold (texts bufferr xs).
    destruct x as [l|l], bufferr;
      cbn [tagged_action warn_and_buffer Warn Say Fprintf_s_newline
           Sprintf_s_newline tagged_text tagged_event trace buff];
      rewrite <- ?app_assoc, ?append_assoc, ?append_empty_l; done.
Qed.

Lemma texts_stderr bufferr xs :
  texts bufferr xs
  = if bufferr then lines_text (omap stderr_line xs) else EmptyString.
Proof.
  induction xs as [|[l|l] xs IH]; cbn [texts foldr tagged_text omap list_omap stderr_line].
  - by destruct bufferr.
  - fold (texts bufferr xs). rewrite IH. destruct bufferr; [|done].
    cbn [lines_text]. by rewrite append_assoc.
  - fold (texts bufferr xs). by rewrite IH.
Qed.

Lemma run_pumps_spec c bufferr w t :
  run_pumps c bufferr w t
  = (Returned (captured w c bufferr), t ++ map tagged_event (pumped w c)).
Proof.
  unfold run_pumps. rewrite !logOutput_map, pumps_merged, run_tagged.
  cbn [trace buff]. rewrite append_empty_l, texts_stderr.
  unfold captured, pumped. by rewrite merged_stderr.
Qed.

(** ** The paths of [execRunner] and of the strategies *)

Lemma execRunner_paths c bufferr w t :
  exists r evs, execRunner c bufferr w t = (Returned r, t ++ evs)
                /\ runner_path c bufferr w r evs.
Proof.
  unfold execRunner, bind, emit, ask, ret.
  destruct (StdoutPipe w c) as [e1|] eqn:H1.
  { eexists _, _. split; [done|]. by constructor. }
  destruct (StderrPipe w c) as [e2|] eqn:H2.
  { eexists _, _. split; [by rewrite <- app_assoc|]. by constructor. }
  destruct (Start w c) as [e3|] eqn:H3.
  { eexists _, _. split; [by rewrite <- !app_assoc|]. by constructor. }
  rewrite run_pumps_spec.
  eexists _, _. split; [|by apply path_started].
  unfold started_events. by rewrite <- !app_assoc.
Qed.

Lemma Run_paths x line bufferr w t :
  x ∈ strategies ->
  exists pre oc, strategy_path line w x pre oc /\
    match oc with
    | Some c => Run x line bufferr w t = execRunner c bufferr w (t ++ pre)
    | None => exists e, Run x line bufferr w t
                         = (Returned (Some e, nil_error, EmptyString), t ++ pre)
    end.
Proof.
  unfold strategies. rewrite !elem_of_cons, elem_of_nil.
  intros [->|[->|[->|[]]]]; cbn [Run Exec Bash Builtin].
  - unfold Exec_Run, bind, ask, ret.
    destruct (shlex_Split w line) as [ss [e|]] eqn:Hs.
    { eexists [], None. split; [by econstructor|]. rewrite app_nil_r. eauto. }
    destruct ss as [|name arg].
    { eexists [], None. split; [by apply exec_no_command|].
      rewrite app_nil_r. cbn. eauto. }
    eexists [], (Some _). split; [by apply exec_command|].
    by rewrite app_nil_r.
  - unfold Bash_Run, getShell, bind, emit, ask, ret.
    destruct (LookPath w "bash") as [p1 [e1|]] eqn:H1; cbn [snd].
    2:{ eexists _, (Some _). split; [apply bash_found; by rewrite H1|done]. }
    destruct (LookPath w "sh") as [p2 [e2|]] eqn:H2; cbn [snd].
    2:{ eexists _, (Some _).
        split; [eapply sh_found; by rewrite ?H1, ?H2|].
        by rewrite <- app_assoc. }
    eexists _, None. split; [eapply no_shell; by rewrite ?H1, ?H2|].
    rewrite <- app_assoc. eauto.
  - unfold Builtin_Run, bind, emit, ask, ret.
    destruct (os_Executable w) as [p [e|]] eqn:H.
    + eexists _, None. split; [by eapply builtin_no_path|]. eauto.
    + eexists _, (Some _). split; [by eapply builtin_path|]. done.
Qed.

Lemma pump_event_inv e xs :
  e ∈ map tagged_event xs ->
  exists l, e = EvWarn "%s" [l] \/ e = EvSay "%s" [l].
Proof.
  intros [x [-> _]]%list_elem_of_fmap.
  destruct x as [l|l]; exists l; auto.
Qed.

Lemma strategy_path_no_start line w x pre oc c :
  strategy_path line w x pre oc -> EvStart c ∉ pre.
Proof. destruct 1; intros Hin; in_events Hin. Qed.

Lemma runner_path_start c bufferr w r evs c' :
  runner_path c bufferr w r evs -> EvStart c' ∈ evs -> Start w c' = None ->
  r = (nil_error, Cmd_Wait (exit_of w c), captured w c bufferr)
  /\ evs = started_events w c /\ c' = c.
Proof.
  destruct 1 as [e H1|e H1 H2|e H1 H2 H3|H1 H2 H3]; intros Hin Hok.
  - in_events Hin.
  - in_events Hin.
  - assert (c' = c) as -> by in_events Hin. congruence.
  - split; [done|]. split; [done|].
    unfold started_events in Hin.
    rewrite !elem_of_app, !elem_of_cons, elem_of_nil in Hin.
    destruct Hin as [Hin|[Hin|Hin]].
    + naive_solver.
    + apply pump_event_inv in Hin as [l [?|?]]; discriminate.
    + naive_solver.
Qed.

(** ** Some runs *)

Example run_bash_ok :
  Run Bash "make" true world_ok []
  = (Returned (nil_error, Some (ExitError (Exited 1)),
               "oops" +:+ newline +:+ "again" +:+ newline),
     [EvLookPath "bash";
      EvStdoutPipe (Command "bash" ["-c"; "make"]);
      EvStderrPipe (Command "bash" ["-c"; "make"]);
      EvStart (Command "bash" ["-c"; "make"]);
      EvGo Stderr; EvGo Stdout;
      EvWarn "%s" ["oops"]; EvSay "%s" ["hello"]; EvSay "%s" ["world"];
      EvWarn "%s" ["again"];
      EvWait (Command "bash" ["-c"; "make"])]).
Proof. vm_compute. reflexivity. Qed.

Example run_exec_no_token :
  Run Exec "   " false world_no_token []
  = (Returned (Some (errorString "No command defined"), nil_error, EmptyString), []).
Proof. reflexivity. Qed.

Example run_exec_bad_quote :
  Run Exec "echo 'hi" true world_bad_quote []
  = (Returned (Some (errorString "EOF found when expecting closing quote"),
               nil_error, EmptyString), []).
Proof. reflexivity. Qed.

Example run_builtin_unbuffered :
  fst (Run Builtin "indir ./x ls" false world_ok [])
  = Returned (nil_error, Some (ExitError (Exited 1)), EmptyString).
Proof. vm_compute. reflexivity. Qed.

(** ** The result triple *)

(** C1. For each of the three strategies and every call of [Run], when
    the invocation error that comes back is not nil, the process error
    is nil and the error buffer is the empty string; this covers every
    early return of the strategies and of [execRunner]. *)
Theorem invocation_error_alone x line bufferr w t ie pe text t' :
  x ∈ strategies ->
  Run x line bufferr w t = (Returned (ie, pe, text), t') ->
  ie <> nil_error ->
  pe = nil_error /\ text = EmptyString.
Proof.
  intros Hx Hrun Hie.
  destruct (Run_paths x line bufferr w t Hx) as (pre & oc & _ & Hoc).
  destruct oc as [c|].
  - destruct (execRunner_paths c bufferr w (t ++ pre)) as (r & evs & Hr & Hp).
    rewrite Hoc, Hr in Hrun. destruct Hp; simplify_eq; done.
  - destruct Hoc as [e He]. rewrite He in Hrun. by simplify_eq.
Qed.

Lemma invocation_error_alone_witness :
  Bash ∈ strategies
  /\ fst (Run Bash "make" true world_no_shell [])
     = Returned (Some (errorString "Could not find bash or sh on path."),
                 nil_error, EmptyString)
  /\ (nil_error = nil_error /\ EmptyString = EmptyString).
Proof.
  assert (Bash ∈ strategies) as Hx by (unfold strategies; in_list).
  split; [done|]. split; [reflexivity|].
  apply (invocation_error_alone Bash "make" true world_no_shell []
           (Some (errorString "Could not find bash or sh on path."))
           nil_error EmptyString [EvLookPath "bash"; EvLookPath "sh"] Hx).
  - reflexivity.
  - discriminate.
Defined.

(** C4. When the process of a run started, the invocation error is nil
    and the process error is what [Wait] gives for the way the process
    ended: nil exactly when it exited with status zero, an exit error
    when it exited with another status or was killed by a signal. *)
Theorem started_process_error x line bufferr w r t' :
  x ∈ strategies ->
  Run x line bufferr w [] = (r, t') ->
  started w t' ->
  exists c text,
    EvStart c ∈ t'
    /\ r = Returned (nil_error, Cmd_Wait (exit_of w c), text)
    /\ (Cmd_Wait (exit_of w c) = nil_error <-> exit_of w c = Exited 0)
    /\ (forall n, n <> 0%Z -> exit_of w c = Exited n ->
          Cmd_Wait (exit_of w c) = Some (ExitError (Exited n)))
    /\ (forall s, exit_of w c = Signaled s ->
          Cmd_Wait (exit_of w c) = Some (ExitError (Signaled s))).
Proof.
  intros Hx Hrun (c' & Hin & Hok).
  destruct (Run_paths x line bufferr w [] Hx) as (pre & oc & Hpre & Hoc).
  cbn [app] in Hoc. destruct oc as [c|].
  2:{ destruct Hoc as [e He]. rewrite He in Hrun. simplify_eq.
      by apply (strategy_path_no_start _ _ _ _ _ c') in Hpre. }
  destruct (execRunner_paths c bufferr w pre) as (r' & evs & Hr & Hp).
  rewrite Hoc, Hr in Hrun. simplify_eq.
  apply elem_of_app in Hin as [Hin|Hin].
  { by apply (strategy_path_no_start _ _ _ _ _ c') in Hpre. }
  destruct (runner_path_start _ _ _ _ _ _ Hp Hin Hok) as (-> & -> & ->).
  exists c, (captured w c bufferr).
  split; [apply elem_of_app; by right|]. split; [done|].
  unfold Cmd_Wait. destruct (exit_of w c) as [[|p|p]|s]; cbn.
  all: repeat split; intros; simplify_eq; done.
Qed.

Lemma started_process_error_witness :
  Bash ∈ strategies
  /\ started world_ok (snd (Run Bash "make" true world_ok []))
  /\ exists c text,
       fst (Run Bash "make" true world_ok [])
       = Returned (nil_error, Cmd_Wait (exit_of world_ok c), text)
       /\ Cmd_Wait (exit_of world_ok c) = Some (ExitError (Exited 1)).
Proof.
  assert (Bash ∈ strategies) as Hx by (unfold strategies; in_list).
  assert (started world_ok (snd (Run Bash "make" true world_ok []))) as Hst.
  { exists (Command "bash" ["-c"; "make"]). split; [|reflexivity].
    vm_compute. in_list. }
  split; [done|]. split; [done|].
  destruct (started_process_error Bash "make" true world_ok _ _ Hx
              (surjective_pairing _) Hst) as (c & text & _ & Hr & _).
  exists c, text. split; [done|]. reflexivity.
Defined.

(** C5. In [execRunner], when the standard-output pipe, the
    standard-error pipe or the start of the process fails, the call
    returns that failure as the invocation error, with a nil process
    error and an empty buffer; the trace ends there: no pump was
    launched and nothing was said or warned, and when a pipe failed the
    process was not started either. *)
Theorem setup_failure_returns c bufferr w t e :
  (StdoutPipe w c = Some e ->
     execRunner c bufferr w t
     = (Returned (Some e, nil_error, EmptyString), t ++ [EvStdoutPipe c]))
  /\ (StdoutPipe w c = None -> StderrPipe w c = Some e ->
     execRunner c bufferr w t
     = (Returned (Some e, nil_error, EmptyString),
        t ++ [EvStdoutPipe c; EvStderrPipe c]))
  /\ (StdoutPipe w c = None -> StderrPipe w c = None -> Start w c = Some e ->
     execRunner c bufferr w t
     = (Returned (Some e, nil_error, EmptyString),
        t ++ [EvStdoutPipe c; EvStderrPipe c; EvStart c])).
Proof.
  unfold execRunner, bind, emit, ask, ret.
  repeat split.
  - by intros ->.
  - intros -> ->. by rewrite <- app_assoc.
  - intros -> -> ->. by rewrite <- !app_assoc.
Qed.

Lemma setup_failure_returns_witness :
  StdoutPipe world_no_pipe (Command "ls" []) = Some some_error
  /\ execRunner (Command "ls" []) true world_no_pipe []
     = (Returned (Some some_error, nil_error, EmptyString),
        [EvStdoutPipe (Command "ls" [])]).
Proof.
  split; [reflexivity|].
  apply (proj1 (setup_failure_returns (Command "ls" []) true
                  world_no_pipe [] some_error)).
  reflexivity.
Defined.

(** ** The error buffer *)




(** ** The strategies *)

(** C6. [Exec.Run]: when the tokenizer fails, its error comes back as
    the invocation error; when it returns no token, the invocation
    error is "No command defined"; otherwise the command that goes to
    [execRunner] has the first token as its path and the tokens as its
    argument vector, and nothing else. *)
Theorem Exec_Run_cases line bufferr w t :
  (forall ss e, shlex_Split w line = (ss, Some e) ->
     Run Exec line bufferr w t
     = (Returned (Some e, nil_error, EmptyString), t))
  /\ (shlex_Split w line = ([], nil_error) ->
     Run Exec line bufferr w t
     = (Returned (Some (errorString "No command defined"),
                  nil_error, EmptyString), t))
  /\ (forall name arg, shlex_Split w line = (name :: arg, nil_error) ->
     Run Exec line bufferr w t
     = execRunner {| Path := name; Args := name :: arg |} bufferr w t).
Proof.
  cbn [Run Exec]. unfold Exec_Run, bind, ask, ret.
  repeat split.
  - by intros ss e ->.
  - by intros ->.
  - by intros name arg ->.
Qed.

Lemma Exec_Run_cases_witness :
  shlex_Split world_ok "echo hi" = (["echo"; "hi"], nil_error)
  /\ Run Exec "echo hi" false world_ok []
     = execRunner {| Path := "echo"; Args := ["echo"; "hi"] |}
         false world_ok [].
Proof.
  split; [reflexivity|].
  apply (proj2 (proj2 (Exec_Run_cases "echo hi" false world_ok [])) "echo" ["hi"]).
  reflexivity.
Defined.

Lemma execRunner_trace_grows c bufferr w t r t' :
  execRunner c bufferr w t = (r, t') -> t' <> t.
Proof.
  intros Hrun.
  destruct (execRunner_paths c bufferr w t) as (r' & evs & Hr & Hp).
  rewrite Hr in Hrun. simplify_eq.
  intros Heq. apply (f_equal length) in Heq.
  rewrite length_app in Heq.
  destruct Hp; cbn in Heq; lia.
Qed.

Lemma execRunner_trace_first c bufferr w t r t' :
  execRunner c bufferr w t = (r, t') ->
  exists rest, t' = t ++ EvStdoutPipe c :: rest.
Proof.
  intros Hrun.
  destruct (execRunner_paths c bufferr w t) as (r' & evs & Hr & Hp).
  rewrite Hr in Hrun. simplify_eq.
  destruct Hp; eexists; done.
Qed.

(** [Bash.Run] ends after the two lookups, with no pipe asked for,
    exactly when neither shell is on the search path. *)
Lemma Bash_Run_early line bufferr w t :
  (exists r, Run Bash line bufferr w t
             = (r, t ++ [EvLookPath "bash"; EvLookPath "sh"]))
  <-> ~ on_path w "bash" /\ ~ on_path w "sh".
Proof.
  cbn [Run Bash]. unfold Bash_Run, getShell, on_path, bind, emit, ask, ret.
  destruct (snd (LookPath w "bash")) as [e1|] eqn:H1.
  - destruct (snd (LookPath w "sh")) as [e2|] eqn:H2.
    + rewrite <- app_assoc. cbn [app]. split; [done|eauto].
    + split; [|intros [_ H]; by destruct H].
      intros [r Hr]. apply execRunner_trace_first in Hr as [rest Hr].
      rewrite <- !app_assoc in Hr. apply app_inv_head in Hr. simplify_eq.
  - split; [|intros [H _]; by destruct H].
    intros [r Hr]. apply execRunner_trace_first in Hr as [rest Hr].
    rewrite <- !app_assoc in Hr. apply app_inv_head in Hr. simplify_eq.
Qed.

(** C7. [Bash.getShell] looks up "bash" and, only when that fails,
    "sh"; it returns an error exactly when neither is on the search
    path.  [Bash.Run] then returns that error as the invocation error
    with nothing run, and that is the only way the call ends before
    [execRunner]; otherwise it hands [execRunner] the shell that was
    found, with the two arguments "-c" and the line as it came. *)
Theorem Bash_Run_cases line bufferr w t :
  (on_path w "bash" ->
     getShell w t = (Returned ("bash", nil_error), t ++ [EvLookPath "bash"])
     /\ Run Bash line bufferr w t
        = execRunner {| Path := "bash"; Args := ["bash"; "-c"; line] |}
            bufferr w (t ++ [EvLookPath "bash"]))
  /\ (~ on_path w "bash" -> on_path w "sh" ->
     getShell w t
     = (Returned ("sh", nil_error), t ++ [EvLookPath "bash"; EvLookPath "sh"])
     /\ Run Bash line bufferr w t
        = execRunner {| Path := "sh"; Args := ["sh"; "-c"; line] |}
            bufferr w (t ++ [EvLookPath "bash"; EvLookPath "sh"]))
  /\ (~ on_path w "bash" -> ~ on_path w "sh" ->
     exists e,
       getShell w t
       = (Returned (EmptyString, Some e),
          t ++ [EvLookPath "bash"; EvLookPath "sh"])
       /\ Run Bash line bufferr w t
          = (Returned (Some e, nil_error, EmptyString),
             t ++ [EvLookPath "bash"; EvLookPath "sh"]))
  /\ (forall sh e t', getShell w t = (Returned (sh, e), t') ->
        e <> nil_error <-> ~ on_path w "bash" /\ ~ on_path w "sh")
  /\ ((exists r, Run Bash line bufferr w t
                 = (r, t ++ [EvLookPath "bash"; EvLookPath "sh"]))
      <-> ~ on_path w "bash" /\ ~ on_path w "sh").
Proof.
  split; [|split; [|split; [|split; [|apply Bash_Run_early]]]].
  all: cbn [Run Bash].
  all: unfold Bash_Run, getShell, on_path, bind, emit, ask, ret.
  all: destruct (snd (LookPath w "bash")) as [e1|] eqn:H1;
         destruct (snd (LookPath w "sh")) as [e2|] eqn:H2.
  all: rewrite <- ?app_assoc; cbn [app].
  all: intros; simplify_eq; try done; eauto.
  all: intuition congruence.
Qed.

Lemma Bash_Run_cases_witness :
  ~ on_path world_sh "bash" /\ on_path world_sh "sh"
  /\ Run Bash "make && ls" false world_sh []
     = execRunner {| Path := "sh"; Args := ["sh"; "-c"; "make && ls"] |}
         false world_sh [EvLookPath "bash"; EvLookPath "sh"].
Proof.
  assert (~ on_path world_sh "bash") as H1 by (vm_compute; discriminate).
  assert (on_path world_sh "sh") as H2 by reflexivity.
  split; [done|]. split; [done|].
  apply (proj1 (proj2 (Bash_Run_cases "make && ls" false world_sh [])) H1 H2).
Defined.

(** C8. [Builtin.Run]: when [os.Executable] fails, its error comes back
    as the invocation error and nothing is run, and that is the only
    way the call ends before [execRunner]; otherwise the command that
    goes to [execRunner] is the program's own path with the two
    arguments "--exec" and the line as it came. *)
Theorem Builtin_Run_cases line bufferr w t :
  (forall p e, os_Executable w = (p, Some e) ->
     Run Builtin line bufferr w t
     = (Returned (Some e, nil_error, EmptyString), t ++ [EvExecutable]))
  /\ (forall p, os_Executable w = (p, nil_error) ->
     Run Builtin line bufferr w t
     = execRunner {| Path := p; Args := [p; "--exec"; line] |}
         bufferr w (t ++ [EvExecutable]))
  /\ ((exists r, Run Builtin line bufferr w t = (r, t ++ [EvExecutable]))
      <-> snd (os_Executable w) <> nil_error).
Proof.
  cbn [Run Builtin]. unfold Builtin_Run, bind, emit, ask, ret.
  destruct (os_Executable w) as [p [e|]]; cbn [snd].
  - repeat split; intros; simplify_eq; eauto.
  - repeat split; intros; simplify_eq; try done.
    destruct H as [r Hr]. by apply execRunner_trace_grows in Hr.
Qed.

Lemma Builtin_Run_cases_witness :
  os_Executable world_no_self = ("/usr/bin/modd", Some some_error)
  /\ Run Builtin "indir ./x ls" false world_no_self []
     = (Returned (Some some_error, nil_error, EmptyString), [EvExecutable]).
Proof.
  split; [reflexivity|].
  apply (proj1 (Builtin_Run_cases "indir ./x ls" false world_no_self [])
           "/usr/bin/modd" some_error).
  reflexivity.
Defined.

(** ** The registry *)

Lemma init_returns : init = Returned shells0.
Proof.
  unfold init, register, and_then. cbn [Name Exec Bash Builtin].
  rewrite lookup_empty.
  rewrite lookup_insert_ne, lookup_empty by done.
  rewrite !lookup_insert_ne, lookup_empty by done.
  done.
Qed.

Lemma strategies_return x line bufferr w t :
  x ∈ strategies -> exists r t', Run x line bufferr w t = (Returned r, t').
Proof.
  intros Hx.
  destruct (Run_paths x line bufferr w t Hx) as (pre & oc & _ & Hoc).
  destruct oc as [c|].
  - destruct (execRunner_paths c bufferr w (t ++ pre)) as (r & evs & Hr & _).
    rewrite Hoc, Hr. eauto.
  - destruct Hoc as [e ->]. eauto.
Qed.

(** C9. [register] panics when the name of the executor is already in
    the registry, and inserts the executor under its name, without a
    panic, when the name is new.  No other operation of the package
    panics: [init] returns, and [execRunner], [getShell] and, for each
    strategy, every call of [Run] and of [Stop] return, in every world;
    [GetExecutor] is a lookup. *)
Theorem register_duplicate_panics :
  (forall i (shells : gmap string Executor),
     is_Some (shells !! Name i) ->
     register i shells
     = Panicked ("shell interface " +:+ Name i +:+ " already exists"))
  /\ (forall i (shells : gmap string Executor),
     shells !! Name i = None ->
     register i shells = Returned (<[Name i := i]> shells))
  /\ (exists shells, init = Returned shells)
  /\ (forall c bufferr w t,
     exists r t', execRunner c bufferr w t = (Returned r, t'))
  /\ (forall w t, exists r t', getShell w t = (Returned r, t'))
  /\ (forall x line bufferr w t, x ∈ strategies ->
     exists r t', Run x line bufferr w t = (Returned r, t'))
  /\ (forall x w t, x ∈ strategies -> Stop x w t = (Returned nil_error, t)).
Proof.
  repeat split.
  - intros i shells [j Hj]. unfold register. by rewrite Hj.
  - intros i shells Hi. unfold register. by rewrite Hi.
  - exists shells0. apply init_returns.
  - intros c bufferr w t.
    destruct (execRunner_paths c bufferr w t) as (r & evs & Hr & _). eauto.
  - intros w t. unfold getShell, bind, emit, ask, ret.
    destruct (snd (LookPath w "bash")); [|eauto].
    destruct (snd (LookPath w "sh")); eauto.
  - intros. by apply strategies_return.
  - intros x w t. unfold strategies.
    rewrite !elem_of_cons, elem_of_nil. by intros [->|[->|[->|[]]]].
Qed.

Lemma register_duplicate_panics_witness :
  is_Some (shells0 !! Name Bash)
  /\ register Bash shells0 = Panicked "shell interface bash already exists".
Proof.
  assert (is_Some (shells0 !! Name Bash)) as H.
  { exists Bash. unfold shells0. cbn [Name Bash].
    rewrite lookup_insert_ne, lookup_insert_eq by done. done. }
  split; [done|].
  apply (proj1 register_duplicate_panics Bash shells0 H).
Defined.

(** C10. After [init] the registry holds the three names "exec", "bash"
    and "builtin" and no other: for each of them [GetExecutor] returns
    an executor whose [Name] is the name asked for, and for every other
    string it returns nil. *)
Theorem init_registry :
  exists shells,
    init = Returned shells
    /\ dom shells = ({["exec"; "bash"; "builtin"]} : gset string)
    /\ (forall method,
          method = "exec" \/ method = "bash" \/ method = "builtin" ->
          exists x, GetExecutor method shells = Some x
                    /\ Name x = method /\ x ∈ strategies)
    /\ (forall method,
          method <> "exec" -> method <> "bash" -> method <> "builtin" ->
          GetExecutor method shells = None).
Proof.
  exists shells0. split; [apply init_returns|]. split; [|split].
  - unfold shells0. rewrite !dom_insert_L, dom_empty_L. set_solver.
  - intros method [-> | [-> | ->]]; unfold GetExecutor, shells0.
    + exists Exec. rewrite !lookup_insert_ne, lookup_insert_eq by done.
      repeat split. unfold strategies. by apply list_elem_of_here.
    + exists Bash. rewrite lookup_insert_ne, lookup_insert_eq by done.
      repeat split. unfold strategies. apply list_elem_of_further, list_elem_of_here.
    + exists Builtin. rewrite lookup_insert_eq.
      repeat split. unfold strategies.
      apply list_elem_of_further, list_elem_of_further, list_elem_of_here.
  - intros method H1 H2 H3. unfold GetExecutor, shells0.
    by rewrite !lookup_insert_ne, lookup_empty by done.
Qed.

Lemma init_registry_witness :
  exists x, GetExecutor "bash" shells0 = Some x /\ Name x = "bash".
Proof.
  destruct init_registry as (shells & Hinit & _ & Hget & _).
  rewrite init_returns in Hinit. injection Hinit as <-.
  destruct (Hget "bash" (or_intror (or_introl eq_refl))) as (x & Hx & Hn & _).
  by exists x.
Defined.

(** ** [ReadLine] on the bytes of the stream *)

Lemma IndexByte_lt l c i : IndexByte l c = Some i -> (i < length l)%nat.
Proof.
  revert i. induction l as [|x l IH]; intros i; cbn; [done|].
  destruct (decide (x = c)); [intros; simplify_eq; lia|].
  destruct (IndexByte l c) as [j|]; cbn; [|done].
  intros; simplify_eq. specialize (IH j eq_refl). lia.
Qed.

Lemma IndexByte_None l c : IndexByte l c = None <-> c ∉ l.
Proof.
  induction l as [|x l IH]; cbn.
  - split; [intros _ H; by apply elem_of_nil in H|done].
  - destruct (decide (x = c)) as [->|Hne].
    + split; [done|]. intros H. destruct H. by apply list_elem_of_here.
    + destruct (IndexByte l c) as [j|]; cbn.
      * split; [done|]. intros H. destruct IH as [_ IH].
        assert (c ∉ l) as Hl by (intros ?; apply H; by apply list_elem_of_further).
        by specialize (IH Hl).
      * split; [|done]. intros _ [?|?]%elem_of_cons; [done|].
        by apply IH.
Qed.

Lemma IndexByte_app_l l1 l2 c i :
  IndexByte l1 c = Some i -> IndexByte (l1 ++ l2) c = Some i.
Proof.
  revert i. induction l1 as [|x l1 IH]; intros i; cbn; [done|].
  destruct (decide (x = c)); [done|].
  destruct (IndexByte l1 c) as [j|]; cbn; [|done].
  intros; simplify_eq. by rewrite (IH j eq_refl).
Qed.

Lemma IndexByte_app_r l1 l2 c :
  IndexByte l1 c = None ->
  IndexByte (l1 ++ l2) c = option_map (fun i => (length l1 + i)%nat) (IndexByte l2 c).
Proof.
  induction l1 as [|x l1 IH]; cbn.
  - intros _. by destruct (IndexByte l2 c).
  - destruct (decide (x = c)); [done|].
    destruct (IndexByte l1 c) as [j|] eqn:E; cbn; [done|].
    intros _. rewrite IH by done. by destruct (IndexByte l2 c).
Qed.

Lemma IndexByte_take_None l c k :
  IndexByte l c = None -> IndexByte (take k l) c = None.
Proof.
  rewrite !IndexByte_None. intros H Hin. apply H.
  apply elem_of_take in Hin as (i & Hi & _).
  by apply list_elem_of_lookup_2 in Hi.
Qed.

Lemma ReadSlice_loop_eq fuel b :
  ReadSlice_loop fuel b
  = match IndexByte (buf b) LF with
    | Some i =>
        (take (S i) (buf b), nil_error,
         {| bufsize := bufsize b; buf := drop (S i) (buf b);
            rerr := rerr b; rd := rd b |})
    | None =>
        match rerr b with
        | Some e =>
            (buf b, Some e,
             {| bufsize := bufsize b; buf := []; rerr := nil_error; rd := rd b |})
        | None =>
            if decide (bufsize b <= length (buf b))%nat then
              (buf b, Some ErrBufferFull,
               {| bufsize := bufsize b; buf := []; rerr := nil_error; rd := rd b |})
            else
              match fuel with
              | O => (buf b, Some ErrNoProgress, b)
              | S fuel' => ReadSlice_loop fuel' (fill b)
              end
        end
    end.
Proof. by destruct fuel. Qed.

Lemma fill_loop_S i b :
  fill_loop (S i) b
  = let '(p, e, rd') := Read (bufsize b - length (buf b)) (rd b) in
    let b' := {| bufsize := bufsize b; buf := buf b ++ p;
                 rerr := rerr b; rd := rd' |} in
    match e with
    | Some _ => {| bufsize := bufsize b; buf := buf b ++ p;
                   rerr := e; rd := rd' |}
    | None => match p with
              | [] => fill_loop i b'
              | _ :: _ => b'
              end
    end.
Proof. reflexivity. Qed.

Lemma end_error_not_full fin : Some (end_error fin) <> Some ErrBufferFull.
Proof. by destruct fin. Qed.

Lemma unread_flat b : unread b = length (flat b).
Proof. unfold unread, flat. by rewrite length_app. Qed.

(** ** The loops end

    No byte is lost or made up by [fill] and [ReadSlice], and each of
    them moves on: the fuel of the two loops is never used up. *)

Lemma fill_loop_spec i b :
  rerr b = None -> (length (buf b) < bufsize b)%nat ->
  flat (fill_loop i b) = flat b
  /\ bufsize (fill_loop i b) = bufsize b
  /\ (length (buf (fill_loop i b)) <= bufsize b)%nat
  /\ rerr (fill_loop i b) <> Some ErrBufferFull
  /\ (rerr (fill_loop i b) = None ->
      (length (buf b) < length (buf (fill_loop i b)))%nat).
Proof.
  revert b. induction i as [|i IH]; intros b Hre Hroom.
  { cbn. repeat split; try done; lia. }
  rewrite fill_loop_S. unfold Read.
  destruct b as [n bf re [cs fin]].
  cbn [bufsize buf rerr rd chunks final] in *. subst re.
  destruct cs as [|c cs]; cbn [bufsize buf rerr rd chunks final].
  { rewrite app_nil_r. repeat split; cbn; try done; try lia.
    intros Heq. by apply end_error_not_full in Heq. }
  destruct (take (n - length bf) c) as [|x p] eqn:Hp.
  - assert (c = []) as ->.
    { destruct c; [done|]. destruct (n - length bf)%nat eqn:?; [lia|done]. }
    cbn [length]. rewrite decide_True by lia.
    specialize (IH {| bufsize := n; buf := bf ++ []; rerr := nil_error;
                      rd := {| chunks := cs; final := fin |} |}).
    cbn [bufsize buf rerr rd] in IH. rewrite app_nil_r in IH |- *.
    destruct (IH eq_refl Hroom) as (H1 & H2 & H3 & H4 & H5).
    repeat split; try done.
  - assert (length (x :: p) <= n - length bf)%nat as Hlen
      by (rewrite <- Hp, length_take; lia).
    cbn [length] in Hlen.
    repeat split; cbn [bufsize buf rerr rd]; try done.
    + unfold flat. cbn [bufsize buf rerr rd chunks].
      rewrite <- app_assoc. f_equal. rewrite <- Hp.
      destruct (decide (length c <= n - length bf)%nat); cbn [concat].
      * by rewrite take_ge by lia.
      * by rewrite app_assoc, take_drop.
    + rewrite length_app. cbn [length]. lia.
    + intros _. rewrite length_app. cbn [length]. lia.
Qed.

Lemma fill_spec b :
  rerr b = None -> (length (buf b) < bufsize b)%nat ->
  flat (fill b) = flat b
  /\ bufsize (fill b) = bufsize b
  /\ (length (buf (fill b)) <= bufsize b)%nat
  /\ rerr (fill b) <> Some ErrBufferFull
  /\ (rerr (fill b) = None -> (length (buf b) < length (buf (fill b)))%nat).
Proof. apply fill_loop_spec. Qed.

(** The bound on the turns of [ReadSlice]'s loop is never met: any
    fuel above the room left in the buffer gives the same result. *)
Lemma ReadSlice_fuel f1 f2 b :
  (length (buf b) <= bufsize b)%nat ->
  (rerr b = None -> (bufsize b - length (buf b) < f1)%nat) ->
  (rerr b = None -> (bufsize b - length (buf b) < f2)%nat) ->
  ReadSlice_loop f1 b = ReadSlice_loop f2 b.
Proof.
  revert f2 b. induction f1 as [|f1 IH]; intros f2 b Hbuf H1 H2.
  all: rewrite (ReadSlice_loop_eq _ b), (ReadSlice_loop_eq f2 b).
  all: destruct (IndexByte (buf b) LF) as [i|] eqn:Hi; [done|].
  all: destruct (rerr b) as [e|] eqn:He; [done|].
  all: destruct (decide (bufsize b <= length (buf b))%nat); [done|].
  all: specialize (H1 eq_refl); specialize (H2 eq_refl).
  - lia.
  - destruct f2 as [|f2]; [lia|].
    destruct (fill_spec b He ltac:(lia)) as (_ & Hn & Hlen & _ & Hgrow).
    apply IH; rewrite Hn; [lia|intros H; specialize (Hgrow H); lia..].
Qed.

(** [ReadSlice] hands over a prefix of the bytes to come; without an
    error the prefix is not empty, and with [ErrBufferFull] it is a
    whole buffer. *)
Lemma ReadSlice_loop_spec fuel b :
  reader_inv b ->
  (rerr b = None -> (bufsize b - length (buf b) < fuel)%nat) ->
  exists line e b',
    ReadSlice_loop fuel b = (line, e, b')
    /\ flat b = line ++ flat b'
    /\ reader_inv b' /\ bufsize b' = bufsize b
    /\ (e = None -> line <> [])
    /\ (e = Some ErrBufferFull ->
        (bufsize b <= length line)%nat /\ buf b' = []).
Proof.
  revert b. induction fuel as [|fuel IH]; intros b [Hsz Hbuf Herr] Hfuel.
  all: rewrite ReadSlice_loop_eq.
  all: destruct (IndexByte (buf b) LF) as [i|] eqn:Hi.
  1,3: apply IndexByte_lt in Hi; eexists _, _, _; split; [done|];
       unfold flat; cbn [buf rd bufsize rerr];
       rewrite app_assoc, take_drop; split; [done|];
       split; [split; cbn [buf rd bufsize rerr];
               [done|rewrite length_drop; lia|done]|];
       split; [done|]; split; [|done];
       intros _ Hnil; apply (f_equal length) in Hnil;
       rewrite length_take in Hnil; cbn [length] in Hnil; lia.
  all: destruct (rerr b) as [e|] eqn:He.
  1,3: eexists _, _, _; split; [done|];
       unfold flat; cbn [buf rd bufsize rerr app];
       split; [done|]; split; [split; cbn; [done|lia|done]|];
       split; [done|]; split; [done|]; intros ?; congruence.
  all: destruct (decide (bufsize b <= length (buf b))%nat) as [Hfull|Hroom].
  1,3: eexists _, _, _; split; [done|];
       unfold flat; cbn [buf rd bufsize rerr app];
       split; [done|]; split; [split; cbn; [done|lia|done]|];
       split; [done|]; split; [done|]; done.
  all: specialize (Hfuel eq_refl).
  - lia.
  - destruct (fill_spec b He ltac:(lia)) as (Hfl & Hn & Hlen & Hne & Hgrow).
    destruct (IH (fill b)) as (line & e & b' & Hrun & Hcons & Hinv & Hn' & H1 & H2).
    { split; [by rewrite Hn|by rewrite Hn|done]. }
    { intros H. specialize (Hgrow H). lia. }
    exists line, e, b'. rewrite Hn, Hfl in *.
    split; [done|]. split; [done|]. split; [done|]. done.
Qed.

(** A call of [ReadLine] that returns no error takes at least one byte
    of the stream. *)
Lemma ReadLine_progress b l p b' :
  reader_inv b -> ReadLine b = (l, p, nil_error, b') ->
  reader_inv b' /\ (unread b' < unread b)%nat.
Proof.
  intros Hinv. pose proof Hinv as [Hsz _ _]. unfold minReadBufferSize in Hsz.
  destruct (ReadSlice_loop_spec (S (bufsize b)) b Hinv)
    as (line & e & b1 & Hrun & Hcons & Hinv1 & Hn & Hne & Hfull); [lia|].
  assert (unread b = length line + unread b1)%nat as Hun
    by (rewrite !unread_flat, Hcons, length_app; done).
  unfold ReadLine, ReadSlice. rewrite Hrun, Hun.
  destruct (decide (e = Some ErrBufferFull)) as [->|He].
  - destruct (Hfull eq_refl) as [Hlen Hnil].
    destruct (last line) as [c|]; [|intros; simplify_eq; split; [done|lia]].
    destruct (decide (c = CR)); intros; simplify_eq; [|split; [done|lia]].
    destruct Hinv1 as [Hsz1 Hbuf1 Herr1].
    split; [split; cbn [buf bufsize rerr]; [done| |done]|].
    + rewrite Hnil. cbn. unfold minReadBufferSize in Hsz1. lia.
    + unfold unread. cbn [buf rd length]. rewrite Hnil. cbn [length]. lia.
  - destruct line as [|x line].
    + intros; simplify_eq. by specialize (Hne eq_refl).
    + cbn [length].
      destruct (decide (last (x :: line) = Some LF));
        intros; simplify_eq; split; try done; lia.
Qed.

(** The bound on the turns of [logOutput]'s loop is never met, whatever
    the source does: the loop ends on an error of [ReadLine], and more
    fuel changes nothing. *)
Lemma logOutput_loop_fuel f1 f2 r out :
  reader_inv r -> (unread r < f1)%nat -> (unread r < f2)%nat ->
  logOutput_loop f1 r out = logOutput_loop f2 r out.
Proof.
  revert f2 r. induction f1 as [|f1 IH]; intros f2 r Hinv H1 H2; [lia|].
  destruct f2 as [|f2]; [lia|]. cbn [logOutput_loop].
  destruct (ReadLine r) as [[[l p] e] r'] eqn:Hr.
  destruct e as [e|]; [done|].
  destruct (ReadLine_progress _ _ _ _ Hinv Hr) as [Hinv' Hlt].
  f_equal. apply IH; [done|lia..].
Qed.

Lemma NewReaderSize_inv src size : reader_inv (NewReaderSize src size).
Proof. split; cbn; [lia|lia|done]. Qed.

(** [logOutput] is the loop run to its end: on every source, more fuel
    than [logOutput] gives it makes the same calls. *)
Lemma logOutput_fuel fp out fuel :
  (unread (NewReader fp) < fuel)%nat ->
  logOutput_loop fuel (NewReader fp) out = logOutput fp out.
Proof.
  intros Hfuel. unfold logOutput.
  apply logOutput_loop_fuel; [apply NewReaderSize_inv|lia..].
Qed.

(** ** [ReadLine] and the reads of the source *)

(** [fill] on a reader whose window has room and no line feed: the
    bytes to come stay the same, and either the window grows or the end
    of the source is recorded. *)
Lemma fill_ok b :
  reader_ok b -> rerr b = None -> (length (buf b) < bufsize b)%nat ->
  IndexByte (buf b) LF = None ->
  reader_ok (fill b) /\ flat (fill b) = flat b
  /\ bufsize (fill b) = bufsize b /\ final (rd (fill b)) = final (rd b)
  /\ (rerr (fill b) = None -> (length (buf b) < length (buf (fill b)))%nat).
Proof.
  intros [Hsz Hbuf Hch Herr] Hnil Hroom Hlf.
  unfold fill. change maxConsecutiveEmptyReads with (S 99).
  rewrite fill_loop_S. unfold Read.
  destruct b as [n bf re [cs fin]].
  cbn [bufsize buf rerr rd chunks final] in *. subst re.
  destruct cs as [|c cs]; cbn [bufsize buf rerr rd chunks final].
  - rewrite app_nil_r. split; [|done].
    split; cbn [bufsize buf rerr rd chunks final]; try done; try lia.
    intros e0 He0. by simplify_eq.
  - apply Forall_cons in Hch as [Hc Hcs].
    destruct c as [|x c]; [done|].
    destruct (n - length bf)%nat as [|k] eqn:Hk; [lia|].
    cbn [take firstn].
    assert (length (take k c) <= k)%nat by (rewrite length_take; lia).
    cbn [length] in *.
    split; [split|]; cbn [bufsize buf rerr rd chunks final].
    + done.
    + rewrite length_app. cbn [length]. lia.
    + destruct (decide (S (length c) <= S k)%nat); [done|].
      apply Forall_cons. split; [|done].
      intros Hd. apply (f_equal length) in Hd.
      rewrite length_drop in Hd. cbn [length] in Hd. lia.
    + intros e0 He0. by simplify_eq.
    + split; [|split; [done|split; [done|]]].
      * unfold flat. cbn [bufsize buf rerr rd chunks final].
        rewrite <- app_assoc. f_equal.
        destruct (decide (S (length c) <= S k)%nat); cbn [concat drop skipn].
        -- rewrite take_ge by lia. done.
        -- rewrite app_assoc. f_equal.
           change (x :: (take k c ++ drop k c) = x :: c). by rewrite take_drop.
      * intros _. rewrite length_app. cbn [length]. lia.
Qed.

Lemma slice_found b i line k rest :
  reader_ok b -> IndexByte (buf b) LF = Some i ->
  flat_slice (bufsize b) (flat b) = (line, k, rest) ->
  slice_post b line k rest
    (take (S i) (buf b), nil_error,
     {| bufsize := bufsize b; buf := drop (S i) (buf b);
        rerr := rerr b; rd := rd b |}).
Proof.
  intros [Hsz Hbuf Hch Herr] Hi Hflat.
  pose proof (IndexByte_lt _ _ _ Hi) as Hlt.
  unfold flat_slice, flat in Hflat.
  rewrite take_app, (take_ge (buf b)) in Hflat by lia.
  rewrite (IndexByte_app_l _ _ _ _ Hi) in Hflat.
  rewrite take_app_le, drop_app_le in Hflat by lia.
  simplify_eq.
  assert (rerr b = None) as Hre.
  { destruct (rerr b) as [e|] eqn:He; [|done].
    destruct (Herr e eq_refl) as (_ & _ & ? & _). congruence. }
  eexists. split; [done|]. cbn [bufsize buf rerr rd].
  split; [done|]. split; [|done].
  split; cbn [bufsize buf rerr rd]; [done| |done|].
  - rewrite length_drop. lia.
  - intros e He. congruence.
Qed.

Lemma slice_pending b e line k rest :
  reader_ok b -> IndexByte (buf b) LF = None -> rerr b = Some e ->
  flat_slice (bufsize b) (flat b) = (line, k, rest) ->
  slice_post b line k rest
    (buf b, Some e,
     {| bufsize := bufsize b; buf := []; rerr := nil_error; rd := rd b |}).
Proof.
  intros [Hsz Hbuf Hch Herr] Hi He Hflat.
  destruct (Herr e He) as (-> & Hnil & _ & Hlen).
  unfold flat_slice, flat in Hflat.
  rewrite Hnil in Hflat. cbn [concat] in Hflat.
  rewrite app_nil_r, (take_ge (buf b)), Hi in Hflat by lia.
  destruct (decide (bufsize b <= length (buf b))%nat); [lia|].
  simplify_eq.
  eexists. split; [done|]. unfold flat. cbn [bufsize buf rerr rd].
  rewrite Hnil. split; [done|]. split; [|done].
  split; cbn [bufsize buf rerr rd length]; [done|lia|by rewrite Hnil|].
  intros ? ?. congruence.
Qed.

Lemma slice_full b line k rest :
  reader_ok b -> IndexByte (buf b) LF = None -> rerr b = None ->
  (bufsize b <= length (buf b))%nat ->
  flat_slice (bufsize b) (flat b) = (line, k, rest) ->
  slice_post b line k rest
    (buf b, Some ErrBufferFull,
     {| bufsize := bufsize b; buf := []; rerr := nil_error; rd := rd b |}).
Proof.
  intros [Hsz Hbuf Hch Herr] Hi He Hfull Hflat.
  unfold flat_slice, flat in Hflat.
  rewrite take_app_le, (take_ge (buf b)), Hi in Hflat by lia.
  destruct (decide (bufsize b <= length (buf b ++ concat (chunks (rd b))))%nat)
    as [_|Hn]; [|rewrite length_app in Hn; lia].
  rewrite drop_app_le, (drop_ge (buf b)) in Hflat by lia.
  simplify_eq.
  eexists. split; [done|]. unfold flat. cbn [bufsize buf rerr rd app].
  split; [done|]. split; [|done].
  split; cbn [bufsize buf rerr rd length]; [done|lia|done|].
  intros ? ?. congruence.
Qed.

(** [ReadSlice] returns what [flat_slice] says, however the source
    delivers its bytes. *)
Lemma ReadSlice_loop_flat fuel b line k rest :
  reader_ok b ->
  (rerr b = None -> (bufsize b - length (buf b) < fuel)%nat) ->
  flat_slice (bufsize b) (flat b) = (line, k, rest) ->
  slice_post b line k rest (ReadSlice_loop fuel b).
Proof.
  revert b. induction fuel as [|fuel IH]; intros b Hok Hfuel Hflat.
  all: rewrite ReadSlice_loop_eq.
  all: destruct (IndexByte (buf b) LF) as [i|] eqn:Hi;
         [by apply slice_found|].
  all: destruct (rerr b) as [e|] eqn:He; [by apply slice_pending|].
  all: destruct (decide (bufsize b <= length (buf b))%nat) as [Hfull|Hroom];
         [by apply slice_full|].
  all: specialize (Hfuel eq_refl).
  - lia.
  - destruct (fill_ok b Hok He ltac:(lia) Hi)
      as (Hok' & Hfl & Hn & Hfin & Hgrow).
    destruct (IH (fill b) Hok') as (b' & Hrun & Hrest).
    { intros H. specialize (Hgrow H). lia. }
    { by rewrite Hn, Hfl. }
    exists b'. rewrite Hrun, Hfin, <- Hn, <- Hfin. done.
Qed.

Lemma flat_slice_line n s line rest :
  flat_slice n s = (line, SliceLine, rest) -> line <> [].
Proof.
  unfold flat_slice.
  destruct (IndexByte (take n s) LF) as [i|] eqn:Hi.
  - intros ?; simplify_eq. apply IndexByte_lt in Hi.
    rewrite length_take in Hi. destruct s; cbn in *; [lia|done].
  - destruct (decide (n <= length s)%nat); intros; simplify_eq.
Qed.

(** [ReadLine] returns what [flat_line] says, and leaves a reader that
    is ready for the next call. *)
Lemma ReadLine_flat b :
  reader_ok b -> rerr b = None ->
  match flat_line (bufsize b) (flat b) with
  | Some (l, rest) =>
      exists p b', ReadLine b = (l, p, nil_error, b')
        /\ flat b' = rest /\ reader_ok b' /\ rerr b' = None
        /\ bufsize b' = bufsize b
  | None => exists l p e b', ReadLine b = (l, p, Some e, b')
  end.
Proof.
  intros Hok Hre.
  destruct (flat_slice (bufsize b) (flat b)) as [[line k] rest] eqn:Hs.
  destruct (ReadSlice_loop_flat (S (bufsize b)) b line k rest Hok)
    as (b1 & Hrun & Hflat & Hok1 & Hre1 & Hn1 & Hfin1 & Hfull);
    [lia|done|].
  unfold ReadLine, ReadSlice, flat_line. rewrite Hrun, Hs.
  destruct k; cbn [slice_error].
  - destruct (decide (nil_error = Some ErrBufferFull)) as [|_]; [done|].
    pose proof (flat_slice_line _ _ _ _ Hs).
    destruct line as [|x line]; [done|].
    destruct (decide (last (x :: line) = Some LF)); eauto 10.
  - destruct (decide (Some ErrBufferFull = Some ErrBufferFull)) as [_|]; [|done].
    destruct (last line) as [c|]; [|eauto 10].
    destruct (decide (c = CR)); [|eauto 10].
    eexists _, _. split; [done|].
    unfold flat. cbn [buf rd bufsize rerr]. split; [by rewrite <- Hflat|].
    split; [|done].
    destruct Hok1 as [Hsz1 Hbuf1 Hch1 Herr1].
    split; cbn [buf rd bufsize rerr]; [done| |done|intros ? ?; congruence].
    rewrite (Hfull eq_refl). cbn. unfold minReadBufferSize in Hsz1. lia.
  - destruct (decide (Some (end_error (final (rd b))) = Some ErrBufferFull))
      as [Heq|_]; [by apply end_error_not_full in Heq|].
    destruct line as [|x line]; [eauto 10|].
    destruct (decide (last (x :: line) = Some LF)); eauto 10.
Qed.

Lemma read_lines_flat fuel b :
  reader_ok b -> rerr b = None ->
  read_lines fuel b = flat_lines fuel (bufsize b) (flat b).
Proof.
  revert b. induction fuel as [|fuel IH]; intros b Hok Hre; [done|].
  cbn [read_lines flat_lines].
  pose proof (ReadLine_flat b Hok Hre) as H.
  destruct (flat_line (bufsize b) (flat b)) as [[l rest]|].
  - destruct H as (p & b' & -> & Hflat & Hok' & Hre' & Hn).
    rewrite IH by done. by rewrite Hflat, Hn.
  - by destruct H as (l & p & e & b' & ->).
Qed.

Lemma NewReaderSize_ok src size :
  Forall (fun c => c <> []) (chunks src) ->
  reader_ok (NewReaderSize src size).
Proof.
  intros Hch. split; cbn; [lia|lia|done|done].
Qed.

(** The lines a pump reads depend on the bytes of the stream only, not
    on the reads that deliver them. *)
Lemma pump_lines_flat src :
  Forall (fun c => c <> []) (chunks src) ->
  pump_lines src
  = flat_lines (S (length (concat (chunks src)))) defaultBufSize
      (concat (chunks src)).
Proof.
  intros Hch. unfold pump_lines, NewReader.
  rewrite read_lines_flat by (done || by apply NewReaderSize_ok).
  rewrite unread_flat. done.
Qed.

(** ** Streams of short lines *)

(** Every stream is a sequence of complete lines and a last line
    without a line feed. *)
Lemma stream_has_lines (s : list byte) :
  exists ls tail, s = unlines ls ++ tail /\ Forall (fun l => LF ∉ l) (tail :: ls).
Proof.
  induction s as [|c s (ls & tail & -> & Hlf)].
  - exists [], []. split; [done|]. repeat constructor. by intros ?%elem_of_nil.
  - apply Forall_cons in Hlf as [Htail Hls].
    destruct (decide (c = LF)) as [->|Hc].
    + exists ([] :: ls), tail. split; [done|].
      repeat constructor; try done. by intros ?%elem_of_nil.
    + destruct ls as [|l ls].
      * exists [], (c :: tail). split; [done|].
        repeat constructor. intros [?|?]%elem_of_cons; done.
      * apply Forall_cons in Hls as [Hl Hls].
        exists ((c :: l) :: ls), tail. split; [done|].
        repeat constructor; try done. intros [?|?]%elem_of_cons; done.
Qed.

Lemma flat_line_nil n : (0 < n)%nat -> flat_line n [] = None.
Proof.
  intros Hn. unfold flat_line, flat_slice. rewrite take_nil. cbn.
  destruct (decide (n <= 0)%nat); [lia|done].
Qed.

Lemma last_elem_of (l : list byte) c : last l = Some c -> c ∈ l.
Proof.
  intros [l' ->]%last_Some. apply elem_of_app. right. by apply list_elem_of_here.
Qed.

Lemma flat_line_tail n t :
  LF ∉ t -> t <> [] -> (length t < n)%nat -> flat_line n t = Some (t, []).
Proof.
  intros Hlf Hne Hlen. unfold flat_line, flat_slice.
  rewrite take_ge by lia.
  apply IndexByte_None in Hlf as Hi. rewrite Hi.
  destruct (decide (n <= length t)%nat); [lia|].
  destruct t as [|x t]; [done|].
  destruct (decide (last (x :: t) = Some LF)) as [Hl|]; [|done].
  by apply last_elem_of in Hl.
Qed.

Lemma flat_line_short n l rest :
  LF ∉ l -> (length l < n)%nat ->
  flat_line n (l ++ LF :: rest) = Some (chomp_cr l, rest).
Proof.
  intros Hlf Hlen. unfold flat_line, flat_slice.
  apply IndexByte_None in Hlf as Hi.
  assert (IndexByte (take n (l ++ LF :: rest)) LF = Some (length l)) as ->.
  { rewrite take_app, (take_ge l) by lia.
    rewrite IndexByte_app_r by done.
    destruct (n - length l)%nat as [|k] eqn:Hk; [lia|].
    cbn. unfold LF. rewrite decide_True by done. cbn. f_equal. lia. }
  assert (take (S (length l)) (l ++ LF :: rest) = l ++ [LF]) as ->.
  { rewrite take_app, (take_ge l) by lia.
    replace (S (length l) - length l)%nat with 1%nat by lia. done. }
  assert (drop (S (length l)) (l ++ LF :: rest) = rest) as ->.
  { rewrite drop_app, (drop_ge l) by lia.
    replace (S (length l) - length l)%nat with 1%nat by lia. done. }
  destruct (l ++ [LF]) as [|x line] eqn:Hline.
  { by destruct l. }
  rewrite <- Hline. clear x line Hline.
  rewrite last_snoc. rewrite decide_True by done.
  rewrite length_app. cbn [length].
  unfold chomp_cr. rewrite last_lookup.
  destruct l as [|x l] using rev_ind.
  - cbn. rewrite decide_False by (intros [? ?]; lia).
    rewrite decide_False by done. done.
  - clear IHl. rewrite length_app. cbn [length].
    replace (pred (length l + 1)) with (length l) by lia.
    replace (length l + 1 + 1 - 2)%nat with (length l) by lia.
    rewrite (lookup_app_l (l ++ [x])) by (rewrite length_app; cbn; lia).
    rewrite lookup_app_r, Nat.sub_diag by lia. cbn [lookup list_lookup].
    destruct (decide (Some x = Some CR)) as [Hx|Hx].
    + rewrite decide_True by (split; [lia|done]).
      f_equal. f_equal.
      replace (length l + 1 + 1 - 2)%nat with (length l) by lia.
      replace (length l + 1 - 1)%nat with (length l) by lia.
      rewrite <- app_assoc, !take_app_length. done.
    + rewrite decide_False by (intros [_ ?]; done).
      replace (length l + 1 + 1 - 1)%nat with (length (l ++ [x]))
        by (rewrite length_app; cbn; lia).
      by rewrite take_app_length.
Qed.

(** On a stream whose lines are all shorter than the buffer, the lines
    read are the lines of the stream. *)
Lemma flat_lines_short n ls tail fuel :
  Forall (fun l => (LF ∉ l) /\ (length l < n)%nat) (tail :: ls) ->
  (length (unlines ls ++ tail) < fuel)%nat ->
  flat_lines fuel n (unlines ls ++ tail) = stream_lines ls tail.
Proof.
  intros [[Hlf Hlen] Hls]%Forall_cons. revert fuel.
  induction ls as [|l ls IH]; intros fuel Hfuel.
  - unfold unlines, stream_lines. cbn [map concat app] in *.
    destruct fuel as [|fuel]; [lia|]. cbn [flat_lines].
    destruct tail as [|x tail].
    + by rewrite flat_line_nil by lia.
    + rewrite flat_line_tail by done. cbn [tail_line map]. f_equal.
      destruct fuel as [|fuel]; [done|]. cbn [flat_lines].
      by rewrite flat_line_nil by (cbn in Hlen; lia).
  - apply Forall_cons in Hls as [[Hl Hn] Hls].
    unfold unlines, stream_lines in *. cbn [map concat app] in *.
    destruct fuel as [|fuel]; [lia|]. cbn [flat_lines].
    rewrite <- !app_assoc. cbn [app].
    rewrite flat_line_short by done. f_equal.
    apply IH; [done|].
    rewrite <- !app_assoc, !length_app in Hfuel. cbn [length] in Hfuel.
    rewrite length_app. lia.
Qed.

Lemma flat_line_bound n s l rest :
  flat_line n s = Some (l, rest) -> (length l <= n)%nat.
Proof.
  unfold flat_line, flat_slice.
  destruct (IndexByte (take n s) LF) as [i|] eqn:Hi.
  - apply IndexByte_lt in Hi. rewrite length_take in Hi.
    assert (length (take (S i) s) <= n)%nat by (rewrite length_take; lia).
    destruct (take (S i) s) as [|x line]; [done|].
    destruct (decide (last (x :: line) = Some LF));
      intros; simplify_eq; [rewrite length_take|]; lia.
  - destruct (decide (n <= length s)%nat) as [Hle|Hgt].
    + assert (length (take n s) <= n)%nat by (rewrite length_take; lia).
      destruct (last (take n s)) as [c|]; [|intros; simplify_eq; lia].
      destruct (decide (c = CR)); intros; simplify_eq;
        [rewrite length_take|]; lia.
    + destruct s as [|x s]; [done|].
      destruct (decide (last (x :: s) = Some LF));
        intros; simplify_eq; [rewrite length_take|]; lia.
Qed.

Lemma length_string_of_list_byte l :
  String.length (string_of_list_byte l) = length l.
Proof.
  unfold string_of_list_byte.
  induction l as [|x l IH]; cbn; [done|by rewrite IH].
Qed.

(** No line that the pump reads is longer than the buffer. *)
Lemma flat_lines_bound fuel n s :
  Forall (fun l => (String.length l <= n)%nat) (flat_lines fuel n s).
Proof.
  revert s. induction fuel as [|fuel IH]; intros s; cbn [flat_lines]; [done|].
  destruct (flat_line n s) as [[l rest]|] eqn:Hl; [|done].
  apply Forall_cons. split; [|done].
  rewrite length_string_of_list_byte. by apply flat_line_bound in Hl.
Qed.

(** ** The output pump *)

Lemma no_LF_by_search l : IndexByte l LF = None -> LF ∉ l.
Proof. apply IndexByte_None. Qed.

(** The claim as stated fails on a line of 4097 bytes: the pump calls
    [out] twice, with the first 4096 bytes and then with the last one. *)
Lemma long_line_is_split :
  Forall (fun c => c <> []) (chunks long_src)
  /\ concat (chunks long_src) = unlines [long_line] ++ []
  /\ Forall (fun l => LF ∉ l) [[]; long_line]
  /\ pump_lines long_src
     = [string_of_list_byte (repeat "a"%byte 4096); "a"]
  /\ logOutput long_src Say
     <> map (fun l => Say "%s" [l]) (stream_lines [long_line] []).
Proof.
  split; [repeat constructor; done|].
  split; [vm_compute; reflexivity|].
  split; [repeat constructor; apply no_LF_by_search; vm_compute; reflexivity|].
  split; [vm_compute; reflexivity|].
  intros H. apply (f_equal length) in H. vm_compute in H. discriminate.
Qed.

(** * Further properties *)

(** ** The shape of a run *)

Lemma strategy_path_setup line w x pre oc :
  strategy_path line w x pre oc ->
  Forall (fun ev => is_setup ev = true) pre.
Proof. destruct 1; repeat constructor. Qed.

(** Every run of a strategy has one of the two shapes. *)
Lemma Run_shape x line bufferr w :
  x ∈ strategies ->
  exists r t', Run x line bufferr w [] = (Returned r, t')
               /\ run_shape w bufferr r t'.
Proof.
  intros Hx.
  destruct (Run_paths x line bufferr w [] Hx) as (pre & oc & Hpre & Hoc).
  cbn [app] in Hoc.
  pose proof (strategy_path_setup _ _ _ _ _ Hpre) as Hset.
  assert (forall c, EvStart c ∉ pre) as Hns
    by (intros c; eapply strategy_path_no_start; done).
  destruct oc as [c|].
  2:{ destruct Hoc as [e He]. eexists _, _. split; [done|].
      constructor; [done|]. intros c Hc. by apply Hns in Hc. }
  destruct (execRunner_paths c bufferr w pre) as (r & evs & Hr & Hp).
  rewrite Hoc, Hr. eexists _, _. split; [done|].
  destruct Hp as [e H1|e H1 H2|e H1 H2 H3|H1 H2 H3].
  - constructor.
    + apply Forall_app. split; [done|]. repeat constructor.
    + intros c' [Hc|Hc]%elem_of_app; [by apply Hns in Hc|]. in_events Hc.
  - constructor.
    + apply Forall_app. split; [done|]. repeat constructor.
    + intros c' [Hc|Hc]%elem_of_app; [by apply Hns in Hc|]. in_events Hc.
  - constructor.
    + apply Forall_app. split; [done|]. repeat constructor.
    + intros c' [Hc|Hc]%elem_of_app; [by apply Hns in Hc|].
      assert (c' = c) as -> by in_events Hc. congruence.
  - unfold started_events.
    replace (pre ++ [EvStdoutPipe c; EvStderrPipe c; EvStart c; EvGo Stderr;
                     EvGo Stdout] ++ map tagged_event (pumped w c) ++ [EvWait c])
      with ((pre ++ [EvStdoutPipe c; EvStderrPipe c])
              ++ [EvStart c; EvGo Stderr; EvGo Stdout]
              ++ map tagged_event (pumped w c) ++ [EvWait c])
      by (by rewrite <- !app_assoc).
    apply run_started; [|intros c' [Hc|Hc]%elem_of_app|done].
    + apply Forall_app. split; [done|]. repeat constructor.
    + by apply Hns in Hc.
    + in_events Hc.
Qed.

Lemma run_shape_started w bufferr r t' :
  run_shape w bufferr r t' ->
  started w t' <-> exists pe text, r = (nil_error, pe, text).
Proof.
  destruct 1 as [e t' Hset Hns|t1 c Hset Hns Hok].
  - split.
    + intros (c & Hc & Hok). by apply Hns in Hc.
    + intros (pe & text & ?). done.
  - split; [eauto|]. intros _. exists c. split; [|done].
    apply elem_of_app. right. apply list_elem_of_here.
Qed.

Lemma outputs_of_pumps xs :
  List.filter is_output (map tagged_event xs) = map tagged_event xs.
Proof. induction xs as [|[l|l] xs IH]; cbn; by f_equal. Qed.

Lemma says_of_pumps xs :
  List.filter is_say (map tagged_event xs)
  = map (fun l => EvSay "%s" [l]) (omap stdout_line xs).
Proof. induction xs as [|[l|l] xs IH]; cbn; [done|done|by f_equal]. Qed.

Lemma setup_no_output t :
  Forall (fun ev => is_setup ev = true) t ->
  List.filter is_output t = [] /\ List.filter is_say t = []
  /\ List.filter is_warn t = [] /\ List.filter is_pump t = [].
Proof.
  induction 1 as [|e t He _ (H1 & H2 & H3 & H4)]; [done|].
  destruct e; try done; cbn; auto.
Qed.

Lemma shuffle_map {A B} (f : A -> B) xs ys zs :
  shuffle xs ys zs -> shuffle (map f xs) (map f ys) (map f zs).
Proof. induction 1; cbn; by constructor. Qed.

(** X1. When the process of a run started, the calls on the log stream
    are an interleaving of the [Warn] calls for the lines of standard
    error and the [Say] calls for the lines of standard output that
    keeps the order of each; so the [Say] calls are the lines that the
    standard-output pump read, one call per line, in order, whatever
    the schedule. *)
Theorem log_calls_interleave x line bufferr w r t' :
  x ∈ strategies ->
  Run x line bufferr w [] = (r, t') ->
  started w t' ->
  exists c,
    EvStart c ∈ t'
    /\ shuffle (map (fun l => EvWarn "%s" [l]) (pump_lines (stderr_of w c)))
               (map (fun l => EvSay "%s" [l]) (pump_lines (stdout_of w c)))
               (List.filter is_output t')
    /\ List.filter is_say t'
       = map (fun l => EvSay "%s" [l]) (pump_lines (stdout_of w c)).
Proof.
  intros Hx Hrun Hst.
  destruct (Run_shape x line bufferr w Hx) as (r' & t'' & Hr & Hsh).
  rewrite Hr in Hrun. simplify_eq.
  apply (run_shape_started _ _ _ _ Hsh) in Hst as (pe & text & ->).
  inversion Hsh as [|t1 c Hset Hns Hok]; subst.
  destruct (setup_no_output _ Hset) as (Ho & Hs & _ & _).
  exists c. split; [apply elem_of_app; right; apply list_elem_of_here|].
  rewrite !List.filter_app, Ho, Hs. cbn [List.filter is_output is_say app].
  rewrite ?List.filter_app, outputs_of_pumps, says_of_pumps.
  cbn [List.filter is_output is_say]. rewrite !app_nil_r.
  unfold pumped. rewrite merged_stdout. split; [|done].
  unfold merged.
  pose proof (interleave_shuffle (sched w)
                (map inl (pump_lines (stderr_of w c)))
                (map inr (pump_lines (stdout_of w c)))) as Hshuf.
  apply (shuffle_map tagged_event) in Hshuf.
  by rewrite !map_map in Hshuf.
Qed.

Lemma log_calls_interleave_witness :
  Bash ∈ strategies
  /\ started world_ok (snd (Run Bash "make" true world_ok []))
  /\ List.filter is_say (snd (Run Bash "make" true world_ok []))
     = [EvSay "%s" ["hello"]; EvSay "%s" ["world"]].
Proof.
  assert (Bash ∈ strategies) as Hx by (unfold strategies; in_list).
  assert (started world_ok (snd (Run Bash "make" true world_ok []))) as Hst.
  { exists (Command "bash" ["-c"; "make"]). split; [|reflexivity].
    vm_compute. in_list. }
  split; [done|]. split; [done|].
  destruct (log_calls_interleave Bash "make" true world_ok _ _ Hx
              (surjective_pairing _) Hst) as (c & _ & _ & Hs).
  rewrite Hs. reflexivity.
Defined.

(** X2. For each strategy, the invocation error of a run is nil exactly
    when its process started. *)
Theorem invocation_nil_iff_started x line bufferr w r t' :
  x ∈ strategies ->
  Run x line bufferr w [] = (r, t') ->
  (exists pe text, r = Returned (nil_error, pe, text)) <-> started w t'.
Proof.
  intros Hx Hrun.
  destruct (Run_shape x line bufferr w Hx) as (r' & t'' & Hr & Hsh).
  rewrite Hr in Hrun. simplify_eq.
  rewrite (run_shape_started _ _ _ _ Hsh).
  split; intros (pe & text & ?); simplify_eq; eauto.
Qed.

Lemma invocation_nil_iff_started_witness :
  Builtin ∈ strategies
  /\ ~ started world_no_self (snd (Run Builtin "ls" true world_no_self [])).
Proof.
  assert (Builtin ∈ strategies) as Hx by (unfold strategies; in_list).
  split; [done|].
  intros Hst.
  apply (invocation_nil_iff_started Builtin "ls" true world_no_self _ _ Hx
           (surjective_pairing _)) in Hst as (pe & text & Hr).
  vm_compute in Hr. discriminate.
Defined.

(** X3. The order of a run.  When the process did not start, the trace
    holds setup events only: no pump was launched, nothing was said or
    warned, and [Wait] was not called.  When it started, [Wait] is the
    last event, the launches and calls of the pumps all lie between the
    start and [Wait], and before the start there are setup events
    only. *)
Theorem run_order x line bufferr w r t' :
  x ∈ strategies ->
  Run x line bufferr w [] = (r, t') ->
  (~ started w t' -> Forall (fun ev => is_setup ev = true) t')
  /\ (started w t' ->
      exists t1 c t2,
        t' = t1 ++ EvStart c :: t2 ++ [EvWait c]
        /\ Forall (fun ev => is_setup ev = true) t1
        /\ Forall (fun ev => is_pump ev = true) t2).
Proof.
  intros Hx Hrun.
  destruct (Run_shape x line bufferr w Hx) as (r' & t'' & Hr & Hsh).
  rewrite Hr in Hrun. simplify_eq.
  rewrite (run_shape_started _ _ _ _ Hsh).
  destruct Hsh as [e t' Hset Hns|t1 c Hset Hns Hok].
  - split; [done|]. by intros (pe & text & ?).
  - split; [intros H; destruct H; eauto|]. intros _.
    exists t1, c, ([EvGo Stderr; EvGo Stdout] ++ map tagged_event (pumped w c)).
    split; [by rewrite <- !app_assoc|]. split; [done|].
    apply Forall_app. split; [repeat constructor|].
    apply Forall_forall. intros e [[l|l] [-> _]]%list_elem_of_fmap; done.
Qed.

Lemma run_order_witness :
  Exec ∈ strategies
  /\ ~ started world_no_pipe (snd (Run Exec "echo hi" true world_no_pipe []))
  /\ Forall (fun ev => is_setup ev = true)
       (snd (Run Exec "echo hi" true world_no_pipe [])).
Proof.
  assert (Exec ∈ strategies) as Hx by (unfold strategies; in_list).
  assert (~ started world_no_pipe
            (snd (Run Exec "echo hi" true world_no_pipe []))) as Hns.
  { assert (snd (Run Exec "echo hi" true world_no_pipe [])
            = [EvStdoutPipe (Command "echo" ["hi"])]) as -> by reflexivity.
    intros (c & Hc & _). in_events Hc. }
  split; [done|]. split; [done|].
  apply (proj1 (run_order Exec "echo hi" true world_no_pipe _ _ Hx
                  (surjective_pairing _)) Hns).
Defined.

(** ** What does not change a run *)

Lemma interleave_perm {A} s (xs ys : list A) : interleave s xs ys ≡ₚ xs ++ ys.
Proof.
  revert xs ys. induction s as [|b s IH]; intros xs ys; cbn; [done|].
  destruct xs as [|x xs]; [done|].
  destruct ys as [|y ys]; [by rewrite app_nil_r|].
  destruct b.
  - rewrite IH. done.
  - rewrite (IH (x :: xs) ys). by rewrite Permutation_middle.
Qed.

(** [execRunner] in closed form. *)
Lemma execRunner_eq c bufferr w t :
  execRunner c bufferr w t
  = match StdoutPipe w c with
    | Some e => (Returned (Some e, nil_error, EmptyString), t ++ [EvStdoutPipe c])
    | None =>
        match StderrPipe w c with
        | Some e => (Returned (Some e, nil_error, EmptyString),
                     t ++ [EvStdoutPipe c; EvStderrPipe c])
        | None =>
            match Start w c with
            | Some e => (Returned (Some e, nil_error, EmptyString),
                         t ++ [EvStdoutPipe c; EvStderrPipe c; EvStart c])
            | None => (Returned (nil_error, Cmd_Wait (exit_of w c),
                                 captured w c bufferr),
                       t ++ started_events w c)
            end
        end
    end.
Proof.
  unfold execRunner, bind, emit, ask, ret.
  destruct (StdoutPipe w c); [done|].
  destruct (StderrPipe w c); [by rewrite <- app_assoc|].
  destruct (Start w c); [by rewrite <- !app_assoc|].
  rewrite run_pumps_spec. unfold started_events. by rewrite <- !app_assoc.
Qed.

Lemma execRunner_sched c bufferr w s1 s2 t :
  fst (execRunner c bufferr (with_sched w s1) t)
  = fst (execRunner c bufferr (with_sched w s2) t)
  /\ snd (execRunner c bufferr (with_sched w s1) t)
     ≡ₚ snd (execRunner c bufferr (with_sched w s2) t).
Proof.
  rewrite !execRunner_eq. cbn [StdoutPipe StderrPipe Start exit_of with_sched].
  destruct (StdoutPipe w c); [split; reflexivity|].
  destruct (StderrPipe w c); [split; reflexivity|].
  destruct (Start w c); [split; reflexivity|].
  cbn [fst snd]. split; [reflexivity|].
  apply Permutation_app; [reflexivity|]. unfold started_events.
  apply Permutation_app; [reflexivity|].
  apply Permutation_app; [|reflexivity].
  apply Permutation_map. unfold pumped, merged.
  cbn [sched with_sched stderr_of stdout_of].
  by rewrite !interleave_perm.
Qed.

(** The three [Run] methods in closed form. *)
Lemma Exec_Run_eq line bufferr w t :
  Run Exec line bufferr w t
  = match shlex_Split w line with
    | (_, Some e) => (Returned (Some e, nil_error, EmptyString), t)
    | ([], None) =>
        (Returned (Some (errorString "No command defined"),
                   nil_error, EmptyString), t)
    | (name :: arg, None) => execRunner (Command name arg) bufferr w t
    end.
Proof.
  cbn [Run Exec]. unfold Exec_Run, bind, ask, ret.
  by destruct (shlex_Split w line) as [[|name arg] [e|]].
Qed.

Lemma Bash_Run_eq line bufferr w t :
  Run Bash line bufferr w t
  = match snd (LookPath w "bash") with
    | None =>
        execRunner (Command "bash" ["-c"; line]) bufferr w
          (t ++ [EvLookPath "bash"])
    | Some _ =>
        match snd (LookPath w "sh") with
        | None =>
            execRunner (Command "sh" ["-c"; line]) bufferr w
              (t ++ [EvLookPath "bash"; EvLookPath "sh"])
        | Some _ =>
            (Returned (Some (errorString "Could not find bash or sh on path."),
                       nil_error, EmptyString),
             t ++ [EvLookPath "bash"; EvLookPath "sh"])
        end
    end.
Proof.
  cbn [Run Bash]. unfold Bash_Run, getShell, bind, emit, ask, ret.
  destruct (snd (LookPath w "bash")); [|done].
  destruct (snd (LookPath w "sh")); by rewrite <- app_assoc.
Qed.

Lemma Builtin_Run_eq line bufferr w t :
  Run Builtin line bufferr w t
  = match os_Executable w with
    | (_, Some e) =>
        (Returned (Some e, nil_error, EmptyString), t ++ [EvExecutable])
    | (path, None) =>
        execRunner (Command path ["--exec"; line]) bufferr w
          (t ++ [EvExecutable])
    end.
Proof.
  cbn [Run Builtin]. unfold Builtin_Run, bind, emit, ask, ret.
  by destruct (os_Executable w) as [p [e|]].
Qed.

(** X4. The schedule of the two pumps does not show in what [Run]
    returns: with any two schedules the result triple is the same, and
    the two traces hold the same events, in another order at most. *)
Theorem schedule_independent x line bufferr w s1 s2 :
  x ∈ strategies ->
  fst (Run x line bufferr (with_sched w s1) [])
  = fst (Run x line bufferr (with_sched w s2) [])
  /\ snd (Run x line bufferr (with_sched w s1) [])
     ≡ₚ snd (Run x line bufferr (with_sched w s2) []).
Proof.
  unfold strategies. rewrite !elem_of_cons, elem_of_nil.
  intros [-> | [-> | [-> | []]]].
  - rewrite !Exec_Run_eq. cbn [shlex_Split with_sched].
    destruct (shlex_Split w line) as [[|name arg] [e|]];
      try (split; reflexivity). apply execRunner_sched.
  - rewrite !Bash_Run_eq. cbn [LookPath with_sched].
    destruct (snd (LookPath w "bash")); [|apply execRunner_sched].
    destruct (snd (LookPath w "sh")); [split; reflexivity|apply execRunner_sched].
  - rewrite !Builtin_Run_eq. cbn [os_Executable with_sched].
    destruct (os_Executable w) as [p [e|]];
      [split; reflexivity|apply execRunner_sched].
Qed.

Lemma schedule_independent_witness :
  Bash ∈ strategies
  /\ fst (Run Bash "make" true (with_sched world_ok [false; false; true]) [])
     = fst (Run Bash "make" true (with_sched world_ok [true; true]) [])
  /\ snd (Run Bash "make" true (with_sched world_ok [false; false; true]) [])
     <> snd (Run Bash "make" true (with_sched world_ok [true; true]) []).
Proof.
  assert (Bash ∈ strategies) as Hx by (unfold strategies; in_list).
  split; [done|].
  split; [apply (schedule_independent Bash "make" true world_ok _ _ Hx)|].
  vm_compute. discriminate.
Defined.

Lemma execRunner_bufferr c w t :
  snd (execRunner c true w t) = snd (execRunner c false w t)
  /\ exists ie pe text1 text2,
       fst (execRunner c true w t) = Returned (ie, pe, text1)
       /\ fst (execRunner c false w t) = Returned (ie, pe, text2).
Proof.
  rewrite !execRunner_eq.
  destruct (StdoutPipe w c); [split; [done|eauto 10]|].
  destruct (StderrPipe w c); [split; [done|eauto 10]|].
  destruct (Start w c); split; (done || eauto 10).
Qed.

(** X5. Buffering changes the returned text and nothing else: with
    [bufferr] true or false a run leaves the same trace, so the log
    stream gets the same calls, and returns the same invocation error
    and the same process error. *)
Theorem bufferr_changes_text_only x line w t :
  x ∈ strategies ->
  snd (Run x line true w t) = snd (Run x line false w t)
  /\ exists ie pe text1 text2,
       fst (Run x line true w t) = Returned (ie, pe, text1)
       /\ fst (Run x line false w t) = Returned (ie, pe, text2).
Proof.
  unfold strategies. rewrite !elem_of_cons, elem_of_nil.
  intros [-> | [-> | [-> | []]]].
  - rewrite !Exec_Run_eq.
    destruct (shlex_Split w line) as [[|name arg] [e|]];
      try (split; [done|eauto 10]). apply execRunner_bufferr.
  - rewrite !Bash_Run_eq.
    destruct (snd (LookPath w "bash")); [|apply execRunner_bufferr].
    destruct (snd (LookPath w "sh"));
      [split; [done|eauto 10]|apply execRunner_bufferr].
  - rewrite !Builtin_Run_eq.
    destruct (os_Executable w) as [p [e|]];
      [split; [done|eauto 10]|apply execRunner_bufferr].
Qed.

Lemma bufferr_changes_text_only_witness :
  Exec ∈ strategies
  /\ snd (Run Exec "echo hi" true world_ok [])
     = snd (Run Exec "echo hi" false world_ok [])
  /\ fst (Run Exec "echo hi" true world_ok [])
     <> fst (Run Exec "echo hi" false world_ok []).
Proof.
  assert (Exec ∈ strategies) as Hx by (unfold strategies; in_list).
  split; [done|].
  split; [apply (bufferr_changes_text_only Exec "echo hi" world_ok [] Hx)|].
  vm_compute. discriminate.
Defined.

(** ** The output pump, byte by byte *)

Lemma flat_lines_pieces fuel n s :
  flat_lines fuel n s = map string_of_list_byte (flat_pieces fuel n s).
Proof.
  revert s. induction fuel as [|fuel IH]; intros s; cbn; [done|].
  destruct (flat_line n s) as [[l rest]|]; cbn; [|done]. by rewrite IH.
Qed.

Lemma IndexByte_Some_split l c i :
  IndexByte l c = Some i ->
  l = take i l ++ c :: drop (S i) l /\ c ∉ take i l.
Proof.
  revert i. induction l as [|x l IH]; intros i; cbn; [done|].
  destruct (decide (x = c)) as [->|Hne].
  - intros ?; simplify_eq. cbn. split; [by rewrite drop_0|].
    by intros ?%elem_of_nil.
  - destruct (IndexByte l c) as [j|]; cbn; [|done].
    intros ?; simplify_eq. destruct (IH j eq_refl) as [Hl Hn].
    cbn. split; [by rewrite <- Hl|].
    intros [?|?]%elem_of_cons; done.
Qed.

Lemma chomp_cr_no_LF body : LF ∉ body -> LF ∉ chomp_cr body.
Proof.
  unfold chomp_cr. destruct (decide (last body = Some CR)); [|done].
  intros H Hin. apply H. apply elem_of_take in Hin as (i & Hi & _).
  by apply list_elem_of_lookup_2 in Hi.
Qed.

(** What one call of [ReadLine] does to the bytes to come: it stops
    only at the end; it takes a line with its end of line; or it takes
    bytes that hold no line feed, a full buffer or the rest of the
    stream, and does not part a CR from its LF. *)
Lemma flat_line_cases n s :
  (2 <= n)%nat ->
  match flat_line n s with
  | None => s = []
  | Some (l, rest) =>
      (exists body, (LF ∉ body) /\ s = body ++ LF :: rest /\ l = chomp_cr body)
      \/ ((LF ∉ l) /\ s = l ++ rest /\ l <> []
          /\ (last l <> Some CR \/ head rest <> Some LF))
  end.
Proof.
  intros Hn.
  destruct (IndexByte (take n s) LF) as [i|] eqn:Hi.
  - pose proof (IndexByte_lt _ _ _ Hi) as Hlt. rewrite length_take in Hlt.
    destruct (IndexByte_Some_split _ _ _ Hi) as [Hs Hno].
    rewrite take_take, Nat.min_l in Hs, Hno by lia.
    assert (s = take i s ++ LF :: drop (S i) s) as Hs'.
    { rewrite <- (take_drop n s) at 1. rewrite Hs at 1.
      rewrite <- app_assoc. cbn. do 2 f_equal.
      rewrite <- (take_drop n s) at 3. rewrite drop_app_le by (rewrite length_take; lia).
      done. }
    assert (length (take i s) < n)%nat as Hbody by (rewrite length_take; lia).
    revert Hs' Hno Hbody. generalize (take i s) (drop (S i) s).
    intros body rest -> Hno Hbody. rewrite flat_line_short by done.
    left. by exists body.
  - unfold flat_line, flat_slice. rewrite Hi.
    apply IndexByte_None in Hi.
    destruct (decide (n <= length s)%nat) as [Hle|Hgt].
    + assert (length (take n s) = n) as Hlen by (rewrite length_take; lia).
      destruct (last (take n s)) as [c|] eqn:Hlast.
      2:{ apply last_None in Hlast. rewrite Hlast in Hlen. cbn in Hlen. lia. }
      destruct (decide (c = CR)) as [->|Hc].
      * right. rewrite Hlen. apply last_Some in Hlast as [l' Hl'].
        assert (length l' = (n - 1)%nat) as Hl'len.
        { apply (f_equal length) in Hl'. rewrite length_app in Hl'.
          cbn in Hl'. lia. }
        assert (take (n - 1) (take n s) = l') as Ht
          by (rewrite Hl', take_app_length'; done).
        rewrite Ht. split; [|split; [|split]].
        -- intros Hin. apply Hi. rewrite Hl'. apply elem_of_app. by left.
        -- rewrite <- (take_drop n s) at 1. rewrite Hl', <- app_assoc. done.
        -- intros ->. cbn in Hl'len. lia.
        -- by right.
      * right. split; [done|]. split; [by rewrite take_drop|]. split.
        -- intros Hnil. rewrite Hnil in Hlen. cbn in Hlen. lia.
        -- left. rewrite Hlast. congruence.
    + rewrite take_ge in Hi by lia.
      destruct s as [|x s]; [done|].
      destruct (decide (last (x :: s) = Some LF)) as [Hl|_].
      { by apply last_elem_of in Hl. }
      right. split; [done|]. split; [by rewrite app_nil_r|]. split; [done|].
      by right.
Qed.

Lemma strip_eols_line body rest :
  LF ∉ body ->
  strip_eols (body ++ LF :: rest) = chomp_cr body ++ strip_eols rest.
Proof.
  induction body as [|c b IH]; intros Hlf.
  - cbn. by rewrite decide_True.
  - apply not_elem_of_cons in Hlf as [Hc Hb].
    cbn [app strip_eols]. rewrite decide_False by done.
    destruct b as [|d b].
    + cbn [app head]. unfold chomp_cr. cbn [last length].
      destruct (decide (c = CR)) as [->|Hne].
      * rewrite decide_True by done. rewrite decide_True by done.
        cbn. by rewrite decide_True.
      * rewrite decide_False by (intros [? _]; done).
        rewrite decide_False by congruence.
        cbn. by rewrite decide_True.
    + assert (d <> LF) as Hd by (intros ->; apply Hb, list_elem_of_here).
      change (head ((d :: b) ++ LF :: rest)) with (Some d).
      rewrite decide_False by (intros [_ ?]; congruence).
      rewrite IH by done. unfold chomp_cr.
      rewrite last_cons_cons. cbn [length].
      destruct (decide (last (d :: b) = Some CR)); [|done].
      cbn. by rewrite Nat.sub_0_r.
Qed.

Lemma strip_eols_app l rest :
  LF ∉ l -> (last l <> Some CR \/ head rest <> Some LF) ->
  strip_eols (l ++ rest) = l ++ strip_eols rest.
Proof.
  induction l as [|c l IH]; intros Hlf Hcr; [done|].
  apply not_elem_of_cons in Hlf as [Hc Hl].
  cbn [app strip_eols]. rewrite decide_False by done.
  destruct l as [|d l].
  - cbn [app]. cbn [last] in Hcr.
    rewrite decide_False; [done|]. intros [-> ?]. by destruct Hcr.
  - assert (d <> LF) as Hd by (intros ->; apply Hl, list_elem_of_here).
    change (head ((d :: l) ++ rest)) with (Some d).
    rewrite decide_False by (intros [_ ?]; congruence).
    f_equal. apply IH; [done|]. by rewrite last_cons_cons in Hcr.
Qed.

(** The pieces that the pump reads hold no line feed and, put end to
    end, are the stream without its ends of line. *)
Lemma flat_pieces_spec fuel n s :
  (2 <= n)%nat -> (length s < fuel)%nat ->
  Forall (fun l => LF ∉ l) (flat_pieces fuel n s)
  /\ concat (flat_pieces fuel n s) = strip_eols s.
Proof.
  intros Hn. revert s. induction fuel as [|fuel IH]; intros s Hfuel; [lia|].
  cbn [flat_pieces]. pose proof (flat_line_cases n s Hn) as Hc.
  destruct (flat_line n s) as [[l rest]|]; [|by subst].
  destruct Hc as [(body & Hlf & -> & ->)|(Hlf & -> & Hne & Hcr)].
  - destruct (IH rest) as [H1 H2].
    { rewrite length_app in Hfuel. cbn in Hfuel. lia. }
    split; [constructor; [by apply chomp_cr_no_LF|done]|].
    cbn [concat]. by rewrite H2, strip_eols_line.
  - destruct (IH rest) as [H1 H2].
    { rewrite length_app in Hfuel. destruct l; [done|]. cbn in Hfuel. lia. }
    split; [by constructor|].
    cbn [concat]. by rewrite H2, strip_eols_app.
Qed.

Lemma logOutput_pieces src out :
  Forall (fun c => c <> []) (chunks src) ->
  logOutput src out
  = map (fun l => out "%s" [string_of_list_byte l])
      (flat_pieces (S (length (concat (chunks src)))) defaultBufSize
         (concat (chunks src))).
Proof.
  intros Hch. rewrite logOutput_map, pump_lines_flat, flat_lines_pieces by done.
  by rewrite map_map.
Qed.

(** X6. The calls that the output pump makes depend on the bytes of the
    stream only: two streams with the same bytes make the same calls,
    wherever their reads end and whether they end at the end of the
    stream or on a read error. *)
Theorem logOutput_reads_independent src1 src2 out :
  Forall (fun c => c <> []) (chunks src1) ->
  Forall (fun c => c <> []) (chunks src2) ->
  concat (chunks src1) = concat (chunks src2) ->
  logOutput src1 out = logOutput src2 out.
Proof.
  intros H1 H2 Heq. rewrite !logOutput_map, !pump_lines_flat by done.
  by rewrite Heq.
Qed.

Lemma logOutput_reads_independent_witness :
  Forall (fun c => c <> []) (chunks short_src)
  /\ Forall (fun c => c <> []) (chunks short_src_one_read)
  /\ chunks short_src <> chunks short_src_one_read
  /\ logOutput short_src Warn = logOutput short_src_one_read Warn.
Proof.
  assert (Forall (fun c : list byte => c <> []) (chunks short_src)) as H1
    by (repeat constructor; done).
  assert (Forall (fun c : list byte => c <> []) (chunks short_src_one_read))
    as H2 by (repeat constructor; done).
  split; [done|]. split; [done|]. split; [done|].
  apply (logOutput_reads_independent short_src short_src_one_read Warn H1 H2).
  reflexivity.
Defined.

(** X7. No call of the output pump carries a line feed: every piece it
    hands to [out] is free of LF bytes, also when a long line is cut. *)
Theorem logOutput_no_line_feed src out :
  Forall (fun c => c <> []) (chunks src) ->
  exists pieces,
    logOutput src out = map (fun l => out "%s" [string_of_list_byte l]) pieces
    /\ Forall (fun l => LF ∉ l) pieces.
Proof.
  intros Hch. eexists. split; [by apply logOutput_pieces|].
  apply flat_pieces_spec; unfold defaultBufSize; lia.
Qed.

Lemma logOutput_no_line_feed_witness :
  Forall (fun c => c <> []) (chunks long_src)
  /\ exists pieces,
       logOutput long_src Say
       = map (fun l => Say "%s" [string_of_list_byte l]) pieces
       /\ Forall (fun l => LF ∉ l) pieces.
Proof.
  assert (Forall (fun c : list byte => c <> []) (chunks long_src)) as H
    by (repeat constructor; done).
  split; [done|]. apply (logOutput_no_line_feed long_src Say H).
Defined.

(** X8. On a stream whose reads each return at least one byte, the
    output pump loses no byte of a line: the pieces it hands to [out],
    put end to end, are the stream without its ends of line (each LF,
    and a CR right before an LF).  A line longer than the buffer
    arrives in pieces, but whole. *)
Theorem logOutput_keeps_bytes src out :
  Forall (fun c => c <> []) (chunks src) ->
  exists pieces,
    logOutput src out = map (fun l => out "%s" [string_of_list_byte l]) pieces
    /\ concat pieces = strip_eols (concat (chunks src)).
Proof.
  intros Hch. eexists. split; [by apply logOutput_pieces|].
  apply flat_pieces_spec; unfold defaultBufSize; lia.
Qed.

Lemma logOutput_keeps_bytes_witness :
  Forall (fun c => c <> []) (chunks long_src)
  /\ exists pieces,
       logOutput long_src Say
       = map (fun l => Say "%s" [string_of_list_byte l]) pieces
       /\ concat pieces = long_line.
Proof.
  assert (Forall (fun c : list byte => c <> []) (chunks long_src)) as H
    by (repeat constructor; done).
  split; [done|].
  destruct (logOutput_keeps_bytes long_src Say H) as (pieces & Hp & Hc).
  exists pieces. split; [done|]. rewrite Hc. vm_compute. reflexivity.
Defined.

Lemma ascii_of_byte_inj x y : ascii_of_byte x = ascii_of_byte y -> x = y.
Proof.
  intros H. apply (f_equal byte_of_ascii) in H.
  by rewrite !byte_of_ascii_of_byte in H.
Qed.

Lemma string_of_list_byte_cons x l :
  string_of_list_byte (x :: l) = String (ascii_of_byte x) (string_of_list_byte l).
Proof. reflexivity. Qed.

Lemma line_text_inj p q a b :
  LF ∉ p -> LF ∉ q ->
  string_of_list_byte p +:+ newline +:+ a
  = string_of_list_byte q +:+ newline +:+ b ->
  p = q /\ a = b.
Proof.
  revert q. induction p as [|x p IH]; intros [|y q] Hp Hq.
  - change (String (ascii_of_byte LF) a = String (ascii_of_byte LF) b
            -> @nil byte = [] /\ a = b).
    intros H. by simplify_eq.
  - change (String (ascii_of_byte LF) a
            = String (ascii_of_byte y)
                (string_of_list_byte q +:+ newline +:+ b)
            -> [] = y :: q /\ a = b).
    intros H. injection H as H _. apply ascii_of_byte_inj in H. subst y.
    destruct Hq. apply list_elem_of_here.
  - change (String (ascii_of_byte x)
              (string_of_list_byte p +:+ newline +:+ a)
            = String (ascii_of_byte LF) b
            -> x :: p = [] /\ a = b).
    intros H. injection H as H _. apply ascii_of_byte_inj in H. subst x.
    destruct Hp. apply list_elem_of_here.
  - rewrite !string_of_list_byte_cons, !append_cons.
    intros H. injection H as Hxy H. apply ascii_of_byte_inj in Hxy. subst y.
    apply not_elem_of_cons in Hp as [_ Hp].
    apply not_elem_of_cons in Hq as [_ Hq].
    destruct (IH q Hp Hq H) as [-> ->]. done.
Qed.

Lemma lines_text_inj ps qs :
  Forall (fun l => LF ∉ l) ps -> Forall (fun l => LF ∉ l) qs ->
  lines_text (map string_of_list_byte ps)
  = lines_text (map string_of_list_byte qs) ->
  ps = qs.
Proof.
  intros Hps. revert qs.
  induction Hps as [|p ps Hp Hps IH]; intros qs Hqs; destruct Hqs as [|q qs Hq Hqs].
  - done.
  - cbn. destruct (string_of_list_byte q); discriminate.
  - cbn. destruct (string_of_list_byte p); discriminate.
  - cbn [map lines_text]. intros H.
    apply line_text_inj in H as [-> H]; [|done..]. f_equal. by apply IH.
Qed.

(** X9. The error buffer tells the lines apart: two standard-error
    streams whose buffered texts are equal were read as the same lines.
    No line holds a line feed, so the text splits back at its line
    feeds into the lines that were warned. *)
Theorem buffer_determines_lines src1 src2 :
  Forall (fun c => c <> []) (chunks src1) ->
  Forall (fun c => c <> []) (chunks src2) ->
  lines_text (pump_lines src1) = lines_text (pump_lines src2) ->
  pump_lines src1 = pump_lines src2.
Proof.
  intros H1 H2. rewrite !pump_lines_flat, !flat_lines_pieces by done.
  intros H. f_equal. apply lines_text_inj in H; [done|..].
  all: apply flat_pieces_spec; unfold defaultBufSize; lia.
Qed.

Lemma buffer_determines_lines_witness :
  lines_text (pump_lines short_src) = lines_text (pump_lines short_src_one_read)
  /\ pump_lines short_src = pump_lines short_src_one_read.
Proof.
  assert (lines_text (pump_lines short_src)
          = lines_text (pump_lines short_src_one_read)) as H
    by (vm_compute; reflexivity).
  split; [done|].
  apply (buffer_determines_lines short_src short_src_one_read);
    [repeat constructor; done..|done].
Defined.

(** ** The registry, step by step *)

Lemma GetExecutor_lookup method (shells : gmap string Executor) :
  GetExecutor method shells = shells !! method.
Proof. unfold GetExecutor. by destruct (shells !! method). Qed.

Lemma register_returned i (shells shells' : gmap string Executor) :
  register i shells = Returned shells' ->
  shells !! Name i = None /\ shells' = <[Name i := i]> shells.
Proof.
  unfold register. destruct (shells !! Name i); intros; by simplify_eq.
Qed.

(** X10. What [register] puts in, [GetExecutor] gets out: after a
    registration that returns, the executor is found under its name,
    and every other name is found, or not found, as before; no
    executor that was registered is replaced or lost. *)
Theorem register_then_GetExecutor i (shells shells' : gmap string Executor) :
  register i shells = Returned shells' ->
  GetExecutor (Name i) shells' = Some i
  /\ (forall method, method <> Name i ->
        GetExecutor method shells' = GetExecutor method shells)
  /\ (forall method x, GetExecutor method shells = Some x ->
        GetExecutor method shells' = Some x).
Proof.
  intros [Hfresh ->]%register_returned. rewrite !GetExecutor_lookup.
  split; [apply lookup_insert_eq|]. split.
  - intros method Hne. rewrite !GetExecutor_lookup. by apply lookup_insert_ne.
  - intros method x. rewrite !GetExecutor_lookup. intros Hx.
    rewrite lookup_insert_ne; [done|]. intros <-. congruence.
Qed.

Lemma register_then_GetExecutor_witness :
  register Bash (<["exec" := Exec]> ∅)
  = Returned (<["bash" := Bash]> (<["exec" := Exec]> ∅))
  /\ (exists x, GetExecutor "bash" (<["bash" := Bash]> (<["exec" := Exec]> ∅))
                = Some x /\ Name x = "bash")
  /\ (exists x, GetExecutor "exec" (<["bash" := Bash]> (<["exec" := Exec]> ∅))
                = Some x /\ Name x = "exec").
Proof.
  assert (register Bash (<["exec" := Exec]> ∅)
          = Returned (<["bash" := Bash]> (<["exec" := Exec]> ∅))) as H.
  { unfold register. cbn [Name Bash].
    by rewrite lookup_insert_ne, lookup_empty. }
  split; [done|].
  destruct (register_then_GetExecutor _ _ _ H) as (H1 & _ & H3).
  split; [by exists Bash|].
  exists Exec. split; [|done]. apply H3.
  rewrite GetExecutor_lookup. apply lookup_insert_eq.
Defined.

(** X11. [register] keeps every executor under its own name: the empty
    registry is so, and a registration that returns leaves it so.
    Whatever was registered, [GetExecutor] returns an executor whose
    [Name] is the name asked for. *)
Theorem register_keeps_names :
  keyed ∅
  /\ (forall i (shells shells' : gmap string Executor),
        keyed shells -> register i shells = Returned shells' -> keyed shells').
Proof.
  split.
  - intros method x. rewrite GetExecutor_lookup, lookup_empty. done.
  - intros i shells shells' Hk [Hfresh ->]%register_returned method x.
    rewrite GetExecutor_lookup.
    destruct (decide (method = Name i)) as [->|Hne].
    + rewrite lookup_insert_eq. intros ?. by simplify_eq.
    + rewrite lookup_insert_ne by done. intros Hx.
      apply Hk. by rewrite GetExecutor_lookup.
Qed.

Lemma register_keeps_names_witness : keyed shells0.
Proof.
  destruct register_keeps_names as [H0 Hstep].
  assert (register Exec ∅ = Returned (<["exec" := Exec]> ∅)) as H1.
  { unfold register. cbn [Name Exec]. by rewrite lookup_empty. }
  assert (register Bash (<["exec" := Exec]> ∅)
          = Returned (<["bash" := Bash]> (<["exec" := Exec]> ∅))) as H2.
  { unfold register. cbn [Name Bash].
    by rewrite lookup_insert_ne, lookup_empty. }
  assert (register Builtin (<["bash" := Bash]> (<["exec" := Exec]> ∅))
          = Returned shells0) as H3.
  { unfold register. cbn [Name Builtin].
    by rewrite !lookup_insert_ne, lookup_empty. }
  exact (Hstep _ _ _ (Hstep _ _ _ (Hstep _ _ _ H0 H1) H2) H3).
Defined.

(** X12. Two registrations in a row: after a registration that
    returns, a second one panics exactly when its executor has the
    name of the first or a name that was there before. *)
Theorem register_twice i j (shells shells' : gmap string Executor) :
  register i shells = Returned shells' ->
  (exists msg, register j shells' = Panicked msg)
  <-> Name j = Name i \/ is_Some (GetExecutor (Name j) shells).
Proof.
  intros [Hfresh ->]%register_returned. rewrite GetExecutor_lookup.
  unfold register.
  destruct (decide (Name j = Name i)) as [Heq|Hne].
  - rewrite Heq, lookup_insert_eq. split; [by left|eauto].
  - rewrite lookup_insert_ne by done.
    destruct (shells !! Name j) as [x|] eqn:Hj.
    + split; [right; eauto|eauto].
    + split; [by intros [msg ?]|].
      intros [?|[x ?]]; done.
Qed.

Lemma register_twice_witness :
  register Exec ∅ = Returned (<["exec" := Exec]> ∅)
  /\ exists msg, register Exec (<["exec" := Exec]> ∅) = Panicked msg.
Proof.
  assert (register Exec ∅ = Returned (<["exec" := Exec]> ∅)) as H.
  { unfold register. cbn [Name Exec]. by rewrite lookup_empty. }
  split; [done|].
  apply (register_twice Exec Exec _ _ H). by left.
Defined.

Example Default_is_registered :
  exists x, GetExecutor Default shells0 = Some x /\ Name x = Default.
Proof.
  exists Bash. split; [|done]. rewrite GetExecutor_lookup. unfold shells0, Default.
  by rewrite lookup_insert_ne, lookup_insert_eq.
Qed.

(** ** The end of the pump *)

Lemma logOutput_loop_length fuel r out :
  reader_inv r -> (length (logOutput_loop fuel r out) <= unread r)%nat.
Proof.
  revert r. induction fuel as [|fuel IH]; intros r Hinv; cbn [logOutput_loop].
  { cbn. lia. }
  destruct (ReadLine r) as [[[l p] e] r'] eqn:Hr.
  destruct e as [e|]; [cbn; lia|].
  destruct (ReadLine_progress _ _ _ _ Hinv Hr) as [Hinv' Hlt].
  specialize (IH r' Hinv'). cbn [length]. lia.
Qed.

(** X13. The output pump ends on every source, also one whose reads
    return no data: its loop stops at an error of [ReadLine] after at
    most one call of [out] per byte of the stream, and running the loop
    longer makes no further call. *)
Theorem logOutput_ends fp out fuel :
  (length (concat (chunks fp)) < fuel)%nat ->
  logOutput_loop fuel (NewReader fp) out = logOutput fp out
  /\ (length (logOutput fp out) <= length (concat (chunks fp)))%nat.
Proof.
  intros Hfuel.
  assert (unread (NewReader fp) = length (concat (chunks fp))) as Hun by done.
  split.
  - unfold logOutput. apply logOutput_loop_fuel;
      [apply NewReaderSize_inv|lia..].
  - rewrite <- Hun. apply logOutput_loop_length, NewReaderSize_inv.
Qed.

Lemma logOutput_ends_witness :
  (length (concat (chunks stalling_src)) < 1000)%nat
  /\ logOutput_loop 1000 (NewReader stalling_src) Say = []
  /\ logOutput stalling_src Say = [].
Proof.
  assert (length (concat (chunks stalling_src)) < 1000)%nat as H
    by (apply Nat.ltb_lt; vm_compute; reflexivity).
  split; [done|].
  destruct (logOutput_ends stalling_src Say 1000 H) as [Heq _].
  rewrite Heq. split; vm_compute; reflexivity.
Defined.

(** * The lines of a stream and their calls *)

(** ** Each line and its calls *)

Lemma flat_line_progress n s l rest :
  (2 <= n)%nat -> flat_line n s = Some (l, rest) ->
  (length rest < length s)%nat.
Proof.
  intros Hn Hl. pose proof (flat_line_cases n s Hn) as Hc. rewrite Hl in Hc.
  destruct Hc as [(body & _ & -> & _)|(_ & -> & Hne & _)].
  - rewrite length_app. cbn. lia.
  - rewrite length_app. destruct l; [done|]. cbn. lia.
Qed.

Lemma flat_pieces_fuel f1 f2 n s :
  (2 <= n)%nat -> (length s < f1)%nat -> (length s < f2)%nat ->
  flat_pieces f1 n s = flat_pieces f2 n s.
Proof.
  intros Hn. revert f2 s.
  induction f1 as [|f1 IH]; intros f2 s H1 H2; [lia|].
  destruct f2 as [|f2]; [lia|]. cbn [flat_pieces].
  destruct (flat_line n s) as [[l rest]|] eqn:Hl; [|done].
  apply flat_line_progress in Hl; [|done].
  f_equal. apply IH; lia.
Qed.

(** [ReadLine] on a buffer that fills up before a line feed comes. *)
Lemma flat_line_full n s :
  (2 <= n)%nat -> LF ∉ take n s -> (n <= length s)%nat ->
  (last (take n s) = Some CR
   /\ flat_line n s = Some (take (n - 1) s, drop (n - 1) s))
  \/ (last (take n s) <> Some CR
      /\ flat_line n s = Some (take n s, drop n s)).
Proof.
  intros Hn Hlf Hle. unfold flat_line, flat_slice.
  apply IndexByte_None in Hlf. rewrite Hlf.
  rewrite decide_True by done.
  assert (length (take n s) = n) as Hlen by (rewrite length_take; lia).
  destruct (last (take n s)) as [c|] eqn:Hlast.
  2:{ apply last_None in Hlast. rewrite Hlast in Hlen. cbn in Hlen. lia. }
  destruct (decide (c = CR)) as [->|Hc].
  - left. split; [done|]. rewrite Hlen.
    apply last_Some in Hlast as [l' Hl'].
    assert (length l' = (n - 1)%nat) as Hl'len.
    { apply (f_equal length) in Hl'. rewrite length_app in Hl'. cbn in Hl'. lia. }
    assert (s = l' ++ CR :: drop n s) as Hs.
    { rewrite <- (take_drop n s) at 1. by rewrite Hl', <- app_assoc. }
    assert (drop (n - 1) s = CR :: drop n s) as Hd.
    { rewrite Hs at 1. by rewrite drop_app_length'. }
    rewrite take_take, Nat.min_l, Hd by lia. done.
  - right. split; [congruence|done].
Qed.

Lemma flat_pieces_S fuel n s :
  flat_pieces (S fuel) n s
  = match flat_line n s with
    | None => []
    | Some (line, rest) => line :: flat_pieces fuel n rest
    end.
Proof. reflexivity. Qed.

Lemma chomp_cr_length l : (length (chomp_cr l) <= length l)%nat.
Proof.
  unfold chomp_cr. destruct (decide (last l = Some CR)); [|done].
  rewrite length_take. lia.
Qed.

Lemma chomp_cr_app a b : b <> [] -> chomp_cr (a ++ b) = a ++ chomp_cr b.
Proof.
  intros Hb. unfold chomp_cr.
  assert (last (a ++ b) = last b) as ->.
  { rewrite last_app. destruct (last b) eqn:E; [done|].
    by apply last_None in E. }
  destruct (decide (last b = Some CR)); [|done].
  rewrite length_app, take_app.
  assert (0 < length b)%nat by (destruct b; [done|cbn; lia]).
  rewrite take_ge by lia. f_equal. f_equal. lia.
Qed.

(** The calls of one line: read from the start of a complete line, the
    pump makes the calls of that line and goes on after its LF. *)
Lemma line_group n body rest :
  (2 <= n)%nat -> LF ∉ body ->
  exists g,
    line_calls n body g
    /\ forall fuel, (length (body ++ LF :: rest) < fuel)%nat ->
         flat_pieces fuel n (body ++ LF :: rest)
         = g ++ flat_pieces (S (length rest)) n rest.
Proof.
  intros Hn. remember (length body) as m eqn:Hm.
  assert (length body <= m)%nat as Hle by lia. clear Hm.
  revert body Hle. induction m as [|m IH]; intros body Hle Hlf.
  all: destruct (decide (length body < n)%nat) as [Hshort|Hlong].
  1,3: exists [chomp_cr body]; split;
       [split; [cbn; by rewrite app_nil_r|];
        split; [apply Forall_cons_2; [|apply Forall_nil_2];
                pose proof (chomp_cr_length body); lia|];
        split; [done|lia]|];
       intros fuel Hfuel; destruct fuel as [|fuel]; [lia|];
       rewrite flat_pieces_S, flat_line_short by done; cbn [app];
       f_equal; apply flat_pieces_fuel; [done| |lia];
       rewrite length_app in Hfuel; cbn in Hfuel; lia.
  { lia. }
  assert (take n (body ++ LF :: rest) = take n body) as Htake
    by (rewrite take_app_le; [done|lia]).
  assert (LF ∉ take n (body ++ LF :: rest)) as Hlf'.
  { rewrite Htake. intros Hin. apply Hlf.
    apply elem_of_take in Hin as (i & Hi & _).
    by apply list_elem_of_lookup_2 in Hi. }
  assert (n <= length (body ++ LF :: rest))%nat as Hlen
    by (rewrite length_app; lia).
  assert (exists k, (1 <= k <= n)%nat
                    /\ (k = n -> last (take n body) <> Some CR)
                    /\ flat_line n (body ++ LF :: rest)
                       = Some (take k body, drop k body ++ LF :: rest))
    as (k & Hk & Hcr & Hline).
  { destruct (flat_line_full n _ Hn Hlf' Hlen) as [[Hl ->]|[Hl ->]].
    - exists (n - 1)%nat. split; [lia|]. split; [lia|].
      by rewrite take_app_le, drop_app_le by lia.
    - exists n. split; [lia|]. split; [by rewrite <- Htake|].
      by rewrite take_app_le, drop_app_le by lia. }
  destruct (IH (drop k body)) as (g' & Hg' & Hrun).
  { rewrite length_drop. lia. }
  { intros Hin. apply Hlf. apply list_elem_of_lookup_1 in Hin as [i Hi].
    rewrite lookup_drop in Hi. by apply list_elem_of_lookup_2 in Hi. }
  destruct Hg' as (Hcat & Hall & Hone & Htwo).
  exists (take k body :: g'). split.
  - split; [|split; [|split]].
    + cbn [concat]. rewrite Hcat.
      destruct (drop k body) as [|y b'] eqn:Hd.
      * assert (length body <= k)%nat as Hk'.
        { apply (f_equal length) in Hd. rewrite length_drop in Hd.
          cbn in Hd. lia. }
        assert (k = n) as -> by lia.
        assert (take n body = body) as Hb by (apply take_ge; lia).
        rewrite Hb in *. specialize (Hcr eq_refl).
        unfold chomp_cr. rewrite (decide_False (P := last body = Some CR)) by done.
        rewrite decide_False by done. by rewrite app_nil_r.
      * rewrite <- chomp_cr_app by done. by rewrite <- Hd, take_drop.
    + constructor; [rewrite length_take; lia|done].
    + lia.
    + intros _. cbn [length].
      destruct (decide (length (drop k body) < n)%nat) as [Hs|Hl].
      * rewrite (Hone Hs). cbn. lia.
      * specialize (Htwo ltac:(lia)). lia.
  - intros fuel Hfuel. destruct fuel as [|fuel]; [lia|].
    rewrite flat_pieces_S, Hline. cbn [app]. f_equal.
    apply Hrun. rewrite length_app in *. rewrite length_drop.
    cbn [length] in *. lia.
Qed.

(** The calls of the bytes after the last LF. *)
Lemma tail_group n tail :
  (2 <= n)%nat -> LF ∉ tail ->
  exists g,
    tail_calls n tail g
    /\ forall fuel, (length tail < fuel)%nat -> flat_pieces fuel n tail = g.
Proof.
  intros Hn. remember (length tail) as m eqn:Hm.
  assert (length tail <= m)%nat as Hle by lia. clear Hm.
  revert tail Hle. induction m as [|m IH]; intros tail Hle Hlf.
  all: destruct (decide (length tail < n)%nat) as [Hshort|Hlong].
  1,3: exists (tail_line tail); split;
       [split; [destruct tail; cbn; by rewrite ?app_nil_r|];
        split; [destruct tail; cbn [tail_line];
                [apply Forall_nil_2
                |apply Forall_cons_2; [lia|apply Forall_nil_2]]|done]|];
       intros fuel Hfuel; destruct fuel as [|fuel]; [lia|];
       rewrite flat_pieces_S; destruct tail as [|x tail];
       [by rewrite flat_line_nil by lia|];
       rewrite flat_line_tail by done; cbn [tail_line]; f_equal;
       destruct fuel as [|fuel]; [done|];
       by rewrite flat_pieces_S, flat_line_nil by lia.
  { lia. }
  assert (LF ∉ take n tail) as Hlf'.
  { intros Hin. apply Hlf. apply elem_of_take in Hin as (i & Hi & _).
    by apply list_elem_of_lookup_2 in Hi. }
  assert (exists k, (1 <= k <= n)%nat
                    /\ flat_line n tail = Some (take k tail, drop k tail))
    as (k & Hk & Hline).
  { destruct (flat_line_full n tail Hn Hlf' ltac:(lia)) as [[_ ->]|[_ ->]].
    - exists (n - 1)%nat. split; [lia|done].
    - exists n. split; [lia|done]. }
  destruct (IH (drop k tail)) as (g' & (Hcat & Hall & Hone) & Hrun).
  { rewrite length_drop. lia. }
  { intros Hin. apply Hlf. apply list_elem_of_lookup_1 in Hin as [i Hi].
    rewrite lookup_drop in Hi. by apply list_elem_of_lookup_2 in Hi. }
  exists (take k tail :: g'). split.
  - split; [|split].
    + cbn [concat]. by rewrite Hcat, take_drop.
    + constructor; [rewrite length_take; lia|done].
    + lia.
  - intros fuel Hfuel. destruct fuel as [|fuel]; [lia|].
    rewrite flat_pieces_S, Hline.
    rewrite Hrun; [done|]. pose proof (length_drop tail k). lia.
Qed.

(** The calls of a stream, line by line: every complete line gets its
    own calls, in the order of the lines, and the bytes after the last
    LF get theirs at the end. *)
Lemma stream_groups n ls tail :
  (2 <= n)%nat -> Forall (fun l => LF ∉ l) (tail :: ls) ->
  exists groups tg,
    Forall2 (line_calls n) ls groups
    /\ tail_calls n tail tg
    /\ forall fuel, (length (unlines ls ++ tail) < fuel)%nat ->
         flat_pieces fuel n (unlines ls ++ tail) = concat groups ++ tg.
Proof.
  intros Hn [Htail Hls]%Forall_cons.
  induction Hls as [|l ls Hl Hls (groups & tg & Hg & Ht & Hrun)].
  - destruct (tail_group n tail Hn Htail) as (tg & Ht & Hrun).
    exists [], tg. split; [constructor|]. split; [done|]. exact Hrun.
  - destruct (line_group n l (unlines ls ++ tail) Hn Hl) as (g & Hlg & Hrun').
    exists (g :: groups), tg. split; [by constructor|]. split; [done|].
    intros fuel Hfuel. unfold unlines in *. cbn [map concat] in *.
    rewrite <- !app_assoc in *. cbn [app] in *.
    rewrite Hrun' by done. rewrite Hrun by lia. done.
Qed.

Lemma short_groups n ls groups :
  Forall2 (line_calls n) ls groups ->
  Forall (fun l => (length l < n)%nat) ls ->
  concat groups = map chomp_cr ls.
Proof.
  induction 1 as [|l g ls groups (_ & _ & Hone & _) _ IH]; [done|].
  intros [Hl Hls]%Forall_cons. cbn. rewrite (Hone Hl), IH by done. done.
Qed.

Lemma short_calls n ls tail groups tg :
  Forall2 (line_calls n) ls groups -> tail_calls n tail tg ->
  Forall (fun l => (length l < n)%nat) (tail :: ls) ->
  concat groups ++ tg = map chomp_cr ls ++ tail_line tail.
Proof.
  intros Hg (_ & _ & Ht) [Htl Hls]%Forall_cons.
  by rewrite (short_groups _ _ _ Hg Hls), (Ht Htl).
Qed.

(** The calls of the pump on a stream given by its lines. *)
Lemma logOutput_groups src ls tail :
  Forall (fun c => c <> []) (chunks src) ->
  concat (chunks src) = unlines ls ++ tail ->
  Forall (fun l => LF ∉ l) (tail :: ls) ->
  exists groups tg,
    pump_lines src = map string_of_list_byte (concat groups ++ tg)
    /\ Forall2 (line_calls defaultBufSize) ls groups
    /\ tail_calls defaultBufSize tail tg.
Proof.
  intros Hch Hs Hlf.
  destruct (stream_groups defaultBufSize ls tail) as (groups & tg & Hg & Ht & Hrun);
    [unfold defaultBufSize; lia|done|].
  exists groups, tg. split; [|done].
  rewrite pump_lines_flat, flat_lines_pieces, Hs by done.
  by rewrite Hrun by lia.
Qed.

(** C3, as amended.  On a stream whose reads each return at least one
    byte, the output pump forwards the lines in the order of the stream,
    each complete line (the bytes before an LF) through calls of its
    own.  A line of fewer than 4096 bytes, a CR at its end counted, gets
    one call, which carries the line without its end of line (LF, or
    CR LF).  A line of 4096 bytes or more gets two calls or more, none
    of more than 4096 bytes, which end to end are the line without its
    end of line.  The bytes after the last LF come last, in one call
    when they are fewer than 4096.  So a stream of lines that are all
    shorter than 4096 bytes is forwarded line for line. *)
Theorem logOutput_line_by_line src ls tail out :
  Forall (fun c => c <> []) (chunks src) ->
  concat (chunks src) = unlines ls ++ tail ->
  Forall (fun l => LF ∉ l) (tail :: ls) ->
  exists groups tg,
    logOutput src out
    = map (fun p => out "%s" [string_of_list_byte p]) (concat groups ++ tg)
    /\ Forall2 (line_calls defaultBufSize) ls groups
    /\ tail_calls defaultBufSize tail tg
    /\ (Forall (fun l => (length l < defaultBufSize)%nat) (tail :: ls) ->
        logOutput src out
        = map (fun l => out "%s" [l]) (stream_lines ls tail)).
Proof.
  intros Hch Hs Hlf.
  destruct (logOutput_groups src ls tail Hch Hs Hlf) as (groups & tg & Hp & Hg & Ht).
  exists groups, tg. rewrite logOutput_map, Hp, map_map.
  split; [done|]. split; [done|]. split; [done|].
  intros Hshort. unfold stream_lines.
  by rewrite (short_calls _ _ _ _ _ Hg Ht Hshort), map_map.
Qed.

Lemma logOutput_line_by_line_witness :
  Forall (fun c => c <> []) (chunks mixed_src)
  /\ (exists groups tg,
        logOutput mixed_src Say
        = map (fun p => Say "%s" [string_of_list_byte p]) (concat groups ++ tg)
        /\ Forall2 (line_calls defaultBufSize)
             [list_byte_of_string "hi"; repeat "a"%byte 4097;
              list_byte_of_string "ok" ++ [CR]] groups
        /\ tail_calls defaultBufSize (list_byte_of_string "end") tg)
  /\ pump_lines mixed_src
     = ["hi"; string_of_list_byte (repeat "a"%byte 4096); "a"; "ok"; "end"].
Proof.
  assert (Forall (fun c : list byte => c <> []) (chunks mixed_src)) as Hch
    by (repeat constructor; done).
  split; [done|]. split; [|vm_compute; reflexivity].
  destruct (logOutput_line_by_line mixed_src
              [list_byte_of_string "hi"; repeat "a"%byte 4097;
               list_byte_of_string "ok" ++ [CR]]
              (list_byte_of_string "end") Say Hch
              ltac:(vm_compute; reflexivity)
              ltac:(repeat first [apply Forall_cons_2 | apply Forall_nil_2];
                    apply no_LF_by_search; vm_compute; reflexivity))
    as (groups & tg & H1 & H2 & H3 & _).
  by exists groups, tg.
Defined.



